(** * A rate limiter over calendar windows: model and verification

    This development embeds [rate_limiter.py] (the [Units] enumeration and
    the [RateLimiter] class) and settles the properties its specification
    states about it.

    Conventions of the embedding.
    - Python [int]s are [Z]; a [datetime] is a record of its seven fields;
      a [timedelta] is its exact length in microseconds, so the float that
      [total_seconds()] returns is that number divided by [10^6].
    - A [dict] whose iteration order the code relies on ([self.usage], the
      sections of the parser) is an association list kept in insertion
      order.
    - A configuration file is held in its parsed form: the ordered sections
      with their ordered options, option names as the parser's
      [optionxform] leaves them.  The parser's [DEFAULT] section and value
      interpolation are outside the model, and text is ASCII.
    - Timestamps are naive (no UTC offset), as [datetime.now()] makes them.
    - Exceptions are values of [exn], all of them instances of Python's
      [Exception]; a method that can raise returns a [result]. *)

From Stdlib Require Import ZArith String Ascii List Lia Bool Sorted.
From Stdlib Require Import DecimalString DecimalPos DecimalN.
From stdpp Require Import base decidable option list gmap strings.

Import ListNotations.
Local Open Scope string_scope.
Local Open Scope Z_scope.

(** ** Exceptions and results *)

Inductive exn : Type :=
| KeyError (key : string)
| ValueError (msg : string)
| TypeError (msg : string)
| AttributeError (msg : string)
| UnboundLocalError (var : string)
| IndexError
| OverflowError
| Exception (msg : string)
| OperationError (tag : string).

Inductive result (A : Type) : Type :=
| Ok (a : A)
| Raise (e : exn).
Arguments Ok {A} a.
Arguments Raise {A} e.

Definition rbind {A B} (r : result A) (k : A -> result B) : result B :=
  match r with
  | Ok a => k a
  | Raise e => Raise e
  end.

Notation "'let*' x ':=' r 'in' k" := (rbind r (fun x => k))
  (at level 10, x name, r at level 100, k at level 200).

Definition is_Ok {A} (r : result A) : bool :=
  match r with Ok _ => true | Raise _ => false end.

(** ** The [Units] enumeration *)

Inductive Units : Type := YEAR | MONTH | DAY | HOUR | MINUTE | SECOND.

#[global] Instance Units_eq_dec : EqDecision Units.
Proof. solve_decision. Defined.

(** [Units.X.value]: the index of the unit in a [timetuple()]. *)
Definition value (u : Units) : nat :=
  match u with
  | YEAR => 0 | MONTH => 1 | DAY => 2 | HOUR => 3 | MINUTE => 4 | SECOND => 5
  end%nat.

(** [Units.X.name] *)
Definition name (u : Units) : string :=
  match u with
  | YEAR => "YEAR" | MONTH => "MONTH" | DAY => "DAY"
  | HOUR => "HOUR" | MINUTE => "MINUTE" | SECOND => "SECOND"
  end.

(** Iteration over the enumeration, [for u in Units], in definition order. *)
Definition all_Units : list Units := [YEAR; MONTH; DAY; HOUR; MINUTE; SECOND].

(** [RateLimiter.parse_unit] *)
Definition parse_unit (s : string) : option Units :=
  if String.eqb s "year" then Some YEAR
  else if String.eqb s "month" then Some MONTH
  else if String.eqb s "day" then Some DAY
  else if String.eqb s "hour" then Some HOUR
  else if String.eqb s "minute" then Some MINUTE
  else if String.eqb s "second" then Some SECOND
  else None.

(** ** Text: the string methods the code calls *)

Definition is_digit (c : ascii) : bool :=
  let n := nat_of_ascii c in (48 <=? n)%nat && (n <=? 57)%nat.

Fixpoint all_digits (s : string) : bool :=
  match s with
  | EmptyString => true
  | String c r => is_digit c && all_digits r
  end.

(** [str.isdigit()] *)
Definition isdigit (s : string) : bool :=
  match s with
  | EmptyString => false
  | _ => all_digits s
  end.

Definition lower_ascii (c : ascii) : ascii :=
  let n := nat_of_ascii c in
  if (65 <=? n)%nat && (n <=? 90)%nat then ascii_of_nat (n + 32) else c.

(** [str.lower()], which is the parser's [optionxform]. *)
Fixpoint lower (s : string) : string :=
  match s with
  | EmptyString => EmptyString
  | String c r => String (lower_ascii c) (lower r)
  end.

Definition optionxform := lower.

(** [str(n)] for an [int]. *)
Definition str_int (n : Z) : string :=
  match n with
  | Zneg p => String "-" (NilZero.string_of_uint (N.to_uint (Npos p)))
  | _ => NilZero.string_of_uint (N.to_uint (Z.to_N n))
  end.

Definition is_space (c : ascii) : bool :=
  let n := nat_of_ascii c in ((9 <=? n)%nat && (n <=? 13)%nat) || (n =? 32)%nat.

Fixpoint lstrip (s : string) : string :=
  match s with
  | EmptyString => EmptyString
  | String c r => if is_space c then lstrip r else s
  end.

Fixpoint rstrip (s : string) : string :=
  match s with
  | EmptyString => EmptyString
  | String c r =>
      match rstrip r with
      | EmptyString => if is_space c then EmptyString else String c EmptyString
      | r' => String c r'
      end
  end.

Definition strip (s : string) : string := rstrip (lstrip s).

(** The digits of an integer literal: single underscores may separate
    digits.  [prev] tells whether the character before was a digit. *)
Fixpoint literal_digits (s : string) (prev : bool) : option string :=
  match s with
  | EmptyString => if prev then Some EmptyString else None
  | String c r =>
      if is_digit c then option_map (String c) (literal_digits r true)
      else if Ascii.eqb c "_" then
        (if prev then literal_digits r false else None)
      else None
  end.

Definition unsigned_literal (s : string) : option Z :=
  match literal_digits s false with
  | Some ds =>
      match NilEmpty.uint_of_string ds with
      | Some d => Some (Z.of_N (N.of_uint d))
      | None => None
      end
  | None => None
  end.

(** [int(s)] for a [str]: surrounding blanks are dropped, a sign may
    come first. *)
Definition int_str (s : string) : result Z :=
  let t := strip s in
  let '(negative, body) :=
    match t with
    | String c r =>
        if Ascii.eqb c "-" then (true, r)
        else if Ascii.eqb c "+" then (false, r)
        else (false, t)
    | EmptyString => (false, t)
    end in
  match unsigned_literal body with
  | Some n => Ok (if negative then - n else n)
  | None => Raise (ValueError ("invalid literal for int() with base 10: " +:+ s))
  end.

(** ** Calendar: [datetime], [timetuple()], [timedelta] *)

Record datetime : Type := mk_datetime {
  year : Z; month : Z; day : Z;
  hour : Z; minute : Z; second : Z; microsecond : Z
}.

Definition is_leap (y : Z) : bool :=
  (y mod 4 =? 0) && (negb (y mod 100 =? 0) || (y mod 400 =? 0)).

Definition days_in_month (y m : Z) : Z :=
  if m =? 2 then (if is_leap y then 29 else 28)
  else if (m =? 4) || (m =? 6) || (m =? 9) || (m =? 11) then 30
  else 31.

Definition days_before_year (y : Z) : Z :=
  let y' := y - 1 in y' * 365 + y' / 4 - y' / 100 + y' / 400.

Definition days_before_month_table : list Z :=
  [0; 0; 31; 59; 90; 120; 151; 181; 212; 243; 273; 304; 334].

Definition days_before_month (y m : Z) : Z :=
  nth (Z.to_nat m) days_before_month_table 0
  + (if (2 <? m) && is_leap y then 1 else 0).

Definition ymd2ord (y m d : Z) : Z :=
  days_before_year y + days_before_month y m + d.

Definition toordinal (t : datetime) : Z := ymd2ord (year t) (month t) (day t).

(** The range checks of the [datetime(...)] constructor. *)
Definition valid_datetime (t : datetime) : bool :=
  (1 <=? year t) && (year t <=? 9999) &&
  (1 <=? month t) && (month t <=? 12) &&
  (1 <=? day t) && (day t <=? days_in_month (year t) (month t)) &&
  (0 <=? hour t) && (hour t <=? 23) &&
  (0 <=? minute t) && (minute t <=? 59) &&
  (0 <=? second t) && (second t <=? 59) &&
  (0 <=? microsecond t) && (microsecond t <=? 999999).

Definition checked (t : datetime) : result datetime :=
  if valid_datetime t then Ok t
  else Raise (ValueError "datetime field is out of range").

(** The [datetime] constructor applied to a list of six arguments. *)
Definition datetime_of_list (args : list Z) : result datetime :=
  match args with
  | [y; m; d; hh; mm; ss] => checked (mk_datetime y m d hh mm ss 0)
  | _ => Raise (TypeError "datetime() arguments")
  end.

(** [datetime.min] *)
Definition datetime_min : datetime := mk_datetime 1 1 1 0 0 0 0.

(** [t.timetuple()]: year, month, day, hour, minute, second, weekday,
    day of the year, and the DST flag, which is -1 for a naive time. *)
Definition timetuple (t : datetime) : list Z :=
  [year t; month t; day t; hour t; minute t; second t;
   (toordinal t + 6) mod 7;
   days_before_month (year t) (month t) + day t;
   -1].

(** Indexing a tuple or a list, [xs[i]]. *)
Definition getitem (xs : list Z) (i : nat) : result Z :=
  match xs !! i with
  | Some x => Ok x
  | None => Raise IndexError
  end.

Definition us_per_second : Z := 1000000.
Definition us_per_day : Z := 86400 * us_per_second.

(** A point in time as the microseconds that separate it from the start
    of day 0 of the proleptic calendar: the value Python's datetime
    arithmetic works on. *)
Definition instant (t : datetime) : Z :=
  ((toordinal t * 86400 + hour t * 3600 + minute t * 60 + second t)
   * us_per_second) + microsecond t.

Definition MAXORDINAL : Z := 3652059.

(** [timedelta(kw=n)] with one keyword argument.  The constructor knows
    the keywords below and no others. *)
Definition timedelta (kw : string) (n : Z) : result Z :=
  if String.eqb kw "days" then Ok (n * us_per_day)
  else if String.eqb kw "seconds" then Ok (n * us_per_second)
  else if String.eqb kw "microseconds" then Ok n
  else if String.eqb kw "milliseconds" then Ok (n * 1000)
  else if String.eqb kw "minutes" then Ok (n * 60 * us_per_second)
  else if String.eqb kw "hours" then Ok (n * 3600 * us_per_second)
  else if String.eqb kw "weeks" then Ok (n * 7 * us_per_day)
  else Raise (TypeError
    ("'" +:+ kw +:+ "' is an invalid keyword argument for __new__()")).

(** [t + delta]: the sum is a datetime again, or the addition overflows.
    The sum is kept as its [instant], which is all the code uses of it. *)
Definition datetime_add (t : datetime) (delta : Z) : result Z :=
  let i := instant t + delta in
  let days := i / us_per_day in
  if (0 <? days) && (days <=? MAXORDINAL) then Ok i else Raise OverflowError.

(** ** Timestamps as text: [str(t)] and [datetime.fromisoformat] *)

Definition digit_char (d : Z) : ascii := ascii_of_nat (48 + Z.to_nat d).
Definition digit_value (c : ascii) : Z := Z.of_nat (nat_of_ascii c - 48).

(** [n] written with exactly [w] digits, as [%0wd] does for [0 <= n < 10^w]. *)
Fixpoint zero_pad (w : nat) (n : Z) : string :=
  match w with
  | O => EmptyString
  | S w' => zero_pad w' (n / 10) +:+ String (digit_char (n mod 10)) EmptyString
  end.

(** [str(t)], that is [t.isoformat(sep=' ')]. *)
Definition str_datetime (t : datetime) : string :=
  zero_pad 4 (year t) +:+ "-" +:+ zero_pad 2 (month t) +:+ "-" +:+
  zero_pad 2 (day t) +:+ " " +:+ zero_pad 2 (hour t) +:+ ":" +:+
  zero_pad 2 (minute t) +:+ ":" +:+ zero_pad 2 (second t) +:+
  (if microsecond t =? 0 then EmptyString
   else "." +:+ zero_pad 6 (microsecond t)).

Fixpoint read_digits (w : nat) (acc : Z) (s : string) : option (Z * string) :=
  match w with
  | O => Some (acc, s)
  | S w' =>
      match s with
      | String c r =>
          if is_digit c then read_digits w' (acc * 10 + digit_value c) r
          else None
      | EmptyString => None
      end
  end.

Definition expect (c : ascii) (s : string) : option string :=
  match s with
  | String c' r => if Ascii.eqb c c' then Some r else None
  | EmptyString => None
  end.

Definition parse_date (s : string) : option (Z * Z * Z * string) :=
  '(y, s) ← read_digits 4 0 s;
  s ← expect "-" s;
  '(m, s) ← read_digits 2 0 s;
  s ← expect "-" s;
  '(d, s) ← read_digits 2 0 s;
  Some (y, m, d, s).

(** The fraction of a second: three or six digits, then the end. *)
Definition parse_fraction (s : string) : option Z :=
  match read_digits 6 0 s with
  | Some (us, EmptyString) => Some us
  | _ =>
      match read_digits 3 0 s with
      | Some (ms, EmptyString) => Some (ms * 1000)
      | _ => None
      end
  end.

(** [HH[:MM[:SS[.fff[fff]]]]] *)
Definition parse_time (s : string) : option (Z * Z * Z * Z) :=
  '(hh, s) ← read_digits 2 0 s;
  match s with
  | EmptyString => Some (hh, 0, 0, 0)
  | _ =>
      s ← expect ":" s;
      '(mm, s) ← read_digits 2 0 s;
      match s with
      | EmptyString => Some (hh, mm, 0, 0)
      | _ =>
          s ← expect ":" s;
          '(ss, s) ← read_digits 2 0 s;
          match s with
          | EmptyString => Some (hh, mm, ss, 0)
          | _ => s ← expect "." s; us ← parse_fraction s; Some (hh, mm, ss, us)
          end
      end
  end.

(** [datetime.fromisoformat(s)] on the shapes without a UTC offset:
    a date, then optionally one separator character and a time. *)
Definition fromisoformat (s : string) : result datetime :=
  let bad := Raise (ValueError ("Invalid isoformat string: " +:+ s)) in
  match parse_date s with
  | Some (y, m, d, rest) =>
      match rest with
      | EmptyString | String _ EmptyString => checked (mk_datetime y m d 0 0 0 0)
      | String _ t =>
          match parse_time t with
          | Some (hh, mm, ss, us) => checked (mk_datetime y m d hh mm ss us)
          | None => bad
          end
      end
  | None => bad
  end.

(** ** Dictionaries in insertion order *)

Section Assoc.
Context {K V : Type} `{EqDecision K}.

(** [d.get(k)] *)
Fixpoint assoc_get (k : K) (d : list (K * V)) : option V :=
  match d with
  | [] => None
  | (k', v) :: d' => if decide (k = k') then Some v else assoc_get k d'
  end.

(** [d[k] = v]: an existing key keeps its place, a new one goes last. *)
Fixpoint assoc_set (k : K) (v : V) (d : list (K * V)) : list (K * V) :=
  match d with
  | [] => [(k, v)]
  | (k', v') :: d' =>
      if decide (k = k') then (k, v) :: d' else (k', v') :: assoc_set k v d'
  end.

(** [k in d] *)
Definition assoc_mem (k : K) (d : list (K * V)) : bool :=
  match assoc_get k d with Some _ => true | None => false end.

(** [list(d)], the keys in iteration order. *)
Definition keys (d : list (K * V)) : list K := map fst d.
End Assoc.

(** ** The configuration parser *)

(** The options of one section, and a whole configuration. *)
Abbreviation options := (list (string * string)).
Abbreviation Config := (list (string * list (string * string))).

(** [config.sections()] *)
Definition sections (c : Config) : list string := keys c.

(** [config[sec]] *)
Definition config_getitem (c : Config) (sec : string) : result options :=
  match assoc_get sec c with
  | Some opts => Ok opts
  | None => Raise (KeyError sec)
  end.

(** [config[sec] = d]: the section is emptied if it exists, created if
    not, then filled from [d]. *)
Definition config_setitem (c : Config) (sec : string) (d : options) : Config :=
  assoc_set sec
    (fold_left (fun acc kv => assoc_set (optionxform (fst kv)) (snd kv) acc) d [])
    c.

(** [config[sec][key] = v] *)
Definition option_setitem (c : Config) (sec key v : string) : result Config :=
  let* opts := config_getitem c sec in
  Ok (assoc_set sec (assoc_set (optionxform key) v opts) c).

(** [config[sec][key]] *)
Definition option_getitem (c : Config) (sec key : string) : result string :=
  let* opts := config_getitem c sec in
  match assoc_get (optionxform key) opts with
  | Some v => Ok v
  | None => Raise (KeyError key)
  end.

(** ** The world outside the limiter, and effects *)

Record World : Type := mk_World {
  files : gmap string (list (string * list (string * string)));
  clock : nat -> datetime;     (* what the n-th reading of the clock gives *)
  ticks : nat;                 (* how many readings were taken *)
  stdout : list string
}.

(** State and exceptions: a raised exception keeps the state reached. *)
Definition Eff (S A : Type) : Type := S -> result A * S.

Definition eret {S A} (a : A) : Eff S A := fun s => (Ok a, s).
Definition eraise {S A} (e : exn) : Eff S A := fun s => (Raise e, s).
Definition elift {S A} (r : result A) : Eff S A := fun s => (r, s).

Definition ebind {S A B} (m : Eff S A) (k : A -> Eff S B) : Eff S B :=
  fun s =>
    match m s with
    | (Ok a, s') => k a s'
    | (Raise e, s') => (Raise e, s')
    end.

(** [try: m  except Exception as e: h e] *)
Definition etry {S A} (m : Eff S A) (h : exn -> Eff S A) : Eff S A :=
  fun s =>
    match m s with
    | (Ok a, s') => (Ok a, s')
    | (Raise e, s') => h e s'
    end.

Notation "'let!' x ':=' m 'in' k" := (ebind m (fun x => k))
  (at level 10, x name, m at level 100, k at level 200).
Notation "m ';;' k" := (ebind m (fun _ => k))
  (at level 100, k at level 200, right associativity).

(** [datetime.now()] *)
Definition datetime_now : Eff World datetime :=
  fun w => (Ok (clock w (ticks w)),
            mk_World (files w) (clock w) (S (ticks w)) (stdout w)).

(** [print(line)] *)
Definition print (line : string) : Eff World unit :=
  fun w => (Ok tt, mk_World (files w) (clock w) (ticks w) (stdout w ++ [line])).

(** [config.read(path)]: a missing file is skipped without an error. *)
Definition config_read (path : string) : Eff World Config :=
  fun w => (Ok (default [] (files w !! path)), w).

(** [with open(path, 'w') as f: config.write(f)] *)
Definition config_write (path : string) (c : Config) : Eff World unit :=
  fun w => (Ok tt, mk_World (<[path := c]> (files w)) (clock w) (ticks w) (stdout w)).

(** ** The limiter *)

Record RateLimiter : Type := mk_RateLimiter {
  cfg_file : string;
  config : list (string * list (string * string));
  usage : list (Units * Z);
  latest_time : datetime
}.

Definition set_config (c : Config) (self : RateLimiter) : RateLimiter :=
  mk_RateLimiter (cfg_file self) c (usage self) (latest_time self).
Definition set_usage (u : list (Units * Z)) (self : RateLimiter) : RateLimiter :=
  mk_RateLimiter (cfg_file self) (config self) u (latest_time self).
Definition set_latest_time (t : datetime) (self : RateLimiter) : RateLimiter :=
  mk_RateLimiter (cfg_file self) (config self) (usage self) t.

(** A method runs on the object and the world. *)
Abbreviation Method A := (Eff (RateLimiter * World) A).

Definition get_self : Method RateLimiter := fun s => (Ok (fst s), s).
Definition modify_self (f : RateLimiter -> RateLimiter) : Method unit :=
  fun s => (Ok tt, (f (fst s), snd s)).
Definition in_world {A} (m : Eff World A) : Method A :=
  fun s => let (r, w) := m (snd s) in (r, (fst s, w)).

(** [self.usage[u]] *)
Definition usage_getitem (self : RateLimiter) (u : Units) : result Z :=
  match assoc_get u (usage self) with
  | Some n => Ok n
  | None => Raise (KeyError (name u))
  end.

(** [RateLimiter.__init_usage] *)
Fixpoint init_usage_loop (params : list string) (us : list (Units * Z))
  : result (list (Units * Z)) :=
  match params with
  | [] => Ok us
  | param :: rest =>
      match parse_unit param with
      | Some unit => init_usage_loop rest (assoc_set unit 0 us)
      | None => Raise (Exception ("unknown time unit in LIMITS: " +:+ param))
      end
  end.

Definition init_usage : Method unit :=
  let! self := get_self in
  let! limits := elift (config_getitem (config self) "LIMITS") in
  let! us := elift (init_usage_loop (keys limits) (usage self)) in
  modify_self (set_usage us).

(** The loop of [__init__] over the items of the USAGE section. *)
Fixpoint load_usage (items : options) (us : list (Units * Z))
  : Eff World (list (Units * Z)) :=
  match items with
  | [] => eret us
  | (key, v) :: rest =>
      match parse_unit key with
      | Some unit =>
          if isdigit v then
            let! n := elift (int_str v) in load_usage rest (assoc_set unit n us)
          else if String.eqb key "latest_time" then load_usage rest us
          else
            print ("value of " +:+ key +:+ " must be a positive integer");;
            load_usage rest us
      | None =>
          if String.eqb key "latest_time" then load_usage rest us
          else print ("paramater " +:+ key +:+ " not valid");; load_usage rest us
      end
  end.

(** [RateLimiter.__init__]; [None] is the default [cfg_file=None]. *)
Definition init (cfg : option string) : Eff World RateLimiter :=
  match cfg with
  | None =>
      let c := config_setitem (config_setitem [] "LIMITS" []) "USAGE" [] in
      let! now := datetime_now in
      eret (mk_RateLimiter "limits.ini" c [] now)
  | Some path =>
      let! c := config_read path in
      let c := if negb (bool_decide ("LIMITS" ∈ sections c))
               then config_setitem c "USAGE" [] else c in
      if bool_decide ("USAGE" ∈ sections c) then
        let! opts := elift (config_getitem c "USAGE") in
        let! latest :=
          match assoc_get "latest_time" opts with
          | Some lt => elift (fromisoformat lt)
          | None => datetime_now
          end in
        let! us := load_usage opts [] in
        eret (mk_RateLimiter path c us latest)
      else
        let! now := datetime_now in
        let c := config_setitem c "USAGE" [] in
        fun w =>
          match init_usage (mk_RateLimiter path c [] now, w) with
          | (Ok _, (self, w')) => (Ok self, w')
          | (Raise e, (_, w')) => (Raise e, w')
          end
  end.

(** Values a caller can pass as keyword arguments. *)
Inductive pyobj : Type :=
| PyInt (n : Z)
| PyStr (s : string)
| PyBool (b : bool)
| PyNone
| PyClassInt.        (* the class [int] itself *)

(** [str(v)] *)
Definition str_obj (v : pyobj) : string :=
  match v with
  | PyInt n => str_int n
  | PyStr s => s
  | PyBool true => "True"
  | PyBool false => "False"
  | PyNone => "None"
  | PyClassInt => "<class 'int'>"
  end.

(** [v is int]: identity with the class object. *)
Definition is_class_int (v : pyobj) : bool :=
  match v with PyClassInt => true | _ => false end.

(** [key.name] for a [str] key: a [str] has no such attribute. *)
Definition str_name (key : string) : result string :=
  Raise (AttributeError "'str' object has no attribute 'name'").

(** [RateLimiter.update_limits], on its keyword arguments in call order. *)
Fixpoint update_limits_loop (kwargs : list (string * pyobj)) : Method unit :=
  match kwargs with
  | [] => eret tt
  | (key, v) :: rest =>
      if bool_decide (parse_unit key <> None) && is_class_int v then
        let! self := get_self in
        let text := str_obj v in
        let! _ := elift (config_getitem (config self) "LIMITS") in
        let! k := elift (str_name key) in
        let! c := elift (option_setitem (config self) "LIMITS" k text) in
        modify_self (set_config c);;
        update_limits_loop rest
      else update_limits_loop rest
  end.

Definition update_limits (kwargs : list (string * pyobj)) : Method unit :=
  update_limits_loop kwargs;;
  let! self := get_self in
  in_world (config_write (cfg_file self) (config self)).

(** [RateLimiter.write_usage] *)
Fixpoint write_usage_loop (items : list (Units * Z)) (c : Config) : result Config :=
  match items with
  | [] => Ok c
  | (key, n) :: rest =>
      let* c' := option_setitem c "USAGE" (name key) (str_int n) in
      write_usage_loop rest c'
  end.

Definition write_usage : Method unit :=
  let! self := get_self in
  let! c := elift (option_setitem (config self) "USAGE" "latest_time"
                     (str_datetime (latest_time self))) in
  modify_self (set_config c);;
  let! c := elift (write_usage_loop (usage self) c) in
  modify_self (set_config c);;
  in_world (config_write (cfg_file self) c).

(** [RateLimiter.__enter__] and [RateLimiter.__exit__] *)
Definition enter : Method RateLimiter := get_self.
Definition exit : Method unit := write_usage.

(** Assignment to a list element, [xs[i] = x]. *)
Definition setitem (xs : list Z) (i : nat) (x : Z) : result (list Z) :=
  if (i <? length xs)%nat then Ok (<[i := x]> xs) else Raise IndexError.

(** [RateLimiter.__calculate_cooldown]; the result is in microseconds. *)
Definition calculate_cooldown (self : RateLimiter) (unit : Units) : result Z :=
  let next_increment := take 6 (timetuple datetime_min) in
  let* next_increment :=
    fold_left
      (fun acc u =>
         let* l := acc in
         let* x := getitem (timetuple (latest_time self)) (value u) in
         setitem l (value u) x)
      all_Units (Ok next_increment) in
  let* next_increment := datetime_of_list next_increment in
  let* delta :=
    match unit with
    | YEAR => timedelta "years" 1
    | MONTH => timedelta "months" 1
    | DAY => timedelta "days" 1
    | HOUR => timedelta "hours" 1
    | MINUTE => timedelta "minutes" 1
    | SECOND => timedelta "seconds" 1
    end in
  let* next_increment := datetime_add next_increment delta in
  Ok (next_increment - instant (latest_time self)).

(** [RateLimiter.cooldown]; [0.0] is [0]. *)
Fixpoint cooldown_loop (self : RateLimiter) (limits : list string) : result Z :=
  match limits with
  | [] => Ok 0
  | unit :: rest =>
      match parse_unit unit with
      | Some u =>
          let* used := usage_getitem self u in
          let* text := option_getitem (config self) "LIMITS" unit in
          let* limit := int_str text in
          if limit <=? used then calculate_cooldown self u
          else cooldown_loop self rest
      | None => cooldown_loop self rest
      end
  end.

Definition cooldown (self : RateLimiter) : result Z :=
  let* limits := config_getitem (config self) "LIMITS" in
  cooldown_loop self (keys limits).

(** [RateLimiter.__is_after].  [i] is the loop variable, unbound until
    the loop body has run once; the [else] branch of the loop runs when
    the range is exhausted. *)
Fixpoint is_after_loop (range : list nat) (i : option nat)
    (current_time latest : list Z) : result bool :=
  match range with
  | j :: rest =>
      let* c := getitem current_time j in
      let* l := getitem latest j in
      if c <? l then Ok false
      else is_after_loop rest (Some j) current_time latest
  | [] =>
      match i with
      | None => Raise (UnboundLocalError "i")
      | Some i =>
          let* c := getitem current_time (i + 1) in
          let* l := getitem latest (i + 1) in
          if c =? l then Ok false else Ok true
      end
  end.

Definition is_after (unit : Units) : Method bool :=
  let! self := get_self in
  let latest := timetuple (latest_time self) in
  let! now := in_world datetime_now in
  let current_time := timetuple now in
  elift (is_after_loop (seq 0 (value unit)) None current_time latest).

(** [RateLimiter.__reset_usage]: [reversed(Units)] runs from SECOND up. *)
Fixpoint reset_usage_loop (units : list Units) (unit : Units)
    (us : list (Units * Z)) : list (Units * Z) :=
  match units with
  | [] => us
  | u :: rest =>
      if negb (assoc_mem u us) then reset_usage_loop rest unit us
      else
        let us' := assoc_set u 0 us in
        if decide (u = unit) then us' else reset_usage_loop rest unit us'
  end.

Definition reset_usage (unit : Units) : Method Datatypes.unit :=
  let! self := get_self in
  modify_self (set_usage (reset_usage_loop (rev all_Units) unit (usage self))).

(** The loop of [request] over the keys of [self.usage]. *)
Fixpoint request_loop (units : list Units) : Method unit :=
  match units with
  | [] => eret tt
  | unit :: rest =>
      let! after := is_after unit in
      (if after then reset_usage unit else eret tt);;
      let! self := get_self in
      let! n := elift (usage_getitem self unit) in
      modify_self (set_usage (assoc_set unit (n + 1) (usage self)));;
      request_loop rest
  end.

(** [RateLimiter.request]; [func] is the wrapped call with its arguments. *)
Definition request {A} (func : Eff World A) : Method A :=
  etry
    (let! output := in_world func in
     let! self := get_self in
     request_loop (keys (usage self));;
     let! now := in_world datetime_now in
     modify_self (set_latest_time now);;
     eret output)
    (fun e => write_usage;; eraise e).

(** ** Vocabulary of the properties *)

(** The calendar component of [t] that a unit names: [t.timetuple()[u.value]]. *)
Definition component (u : Units) (t : datetime) : Z :=
  match u with
  | YEAR => year t | MONTH => month t | DAY => day t
  | HOUR => hour t | MINUTE => minute t | SECOND => second t
  end.

(** The option name under which a unit is persisted. *)
Definition unit_key (u : Units) : string := optionxform (name u).

(** The world after one reading of the clock. *)
Definition tick (w : World) : World :=
  mk_World (files w) (clock w) (S (ticks w)) (stdout w).

(** The world after [path] was written with [c]. *)
Definition written (path : string) (c : Config) (w : World) : World :=
  mk_World (<[path := c]> (files w)) (clock w) (ticks w) (stdout w).

(** The options of the LIMITS section, none if the section is missing. *)
Definition limits_of (self : RateLimiter) : options :=
  default [] (assoc_get "LIMITS" (config self)).

(** A unit is limited when LIMITS has an option that parses to it. *)
Definition limited (self : RateLimiter) (u : Units) : Prop :=
  exists key, key ∈ keys (limits_of self) /\ parse_unit key = Some u.

(** A unit is tracked when the usage map has an entry for it. *)
Definition tracked (self : RateLimiter) (u : Units) : Prop :=
  u ∈ keys (usage self).

#[global] Instance tracked_dec (self : RateLimiter) (u : Units) :
  Decision (tracked self u).
Proof. unfold tracked. apply _. Defined.

(** No limited unit's count is above its configured maximum. *)
Definition within_limits (self : RateLimiter) : Prop :=
  forall key text u n limit,
    assoc_get key (limits_of self) = Some text ->
    parse_unit key = Some u ->
    assoc_get u (usage self) = Some n ->
    int_str text = Ok limit ->
    n <= limit.

(** Every limited unit's count is strictly below its maximum. *)
Definition all_below (self : RateLimiter) : Prop :=
  forall key u, key ∈ keys (limits_of self) -> parse_unit key = Some u ->
    exists n text limit,
      assoc_get u (usage self) = Some n /\
      assoc_get key (limits_of self) = Some text /\
      int_str text = Ok limit /\ n < limit.

(** What every constructed limiter satisfies: the USAGE section exists,
    and the usage map is a [dict] of counts that are not negative. *)
Definition well_formed (self : RateLimiter) : Prop :=
  "USAGE" ∈ sections (config self) /\
  NoDup (keys (usage self)) /\
  (forall u n, assoc_get u (usage self) = Some n -> 0 <= n).

(** Successive requests, one per wrapped call. *)
Fixpoint requests {A} (funcs : list (Eff World A)) : Method unit :=
  match funcs with
  | [] => eret tt
  | func :: rest => let! _ := request func in requests rest
  end.

(** The states a caller can bring a limiter into. *)
Inductive reachable : RateLimiter * World -> Prop :=
| reach_init cfg w self w' :
    init cfg w = (Ok self, w') -> reachable (self, w')
| reach_update_limits kwargs s r s' :
    reachable s -> update_limits kwargs s = (r, s') -> reachable s'
| reach_request (func : Eff World unit) s r s' :
    reachable s -> request func s = (r, s') -> reachable s'.

(** The boundary-crossed condition in the words of the specification:
    the components coarser than the unit are equal and the component
    just finer than the unit differs. *)
Definition crossed_as_stated (unit : Units) (latest now : datetime) : Prop :=
  (forall i, (i < value unit)%nat -> timetuple now !! i = timetuple latest !! i) /\
  timetuple now !! (value unit + 1)%nat <> timetuple latest !! (value unit + 1)%nat.

(** The boundary-crossed condition the code computes. *)
Definition crossed (unit : Units) (latest now : datetime) : Prop :=
  (forall u, (value u < value unit)%nat -> component u latest <= component u now) /\
  component unit now <> component unit latest.

(** The same condition as a computation. *)
Definition crossedb (unit : Units) (latest now : datetime) : bool :=
  forallb (fun u => negb (component u now <? component u latest))
    (take (value unit) all_Units)
  && negb (component unit now =? component unit latest).

(** The usage map lists its units from the coarsest to the finest. *)
Definition coarse_to_fine (units : list Units) : Prop :=
  StronglySorted (fun a b => (value a < value b)%nat) units.

(** The units that [__reset_usage] visits: those of [units] up to the
    first occurrence of [h], which is included. *)
Fixpoint upto (h : Units) (units : list Units) : list Units :=
  match units with
  | [] => []
  | u :: rest => if decide (u = h) then [u] else u :: upto h rest
  end.

(** The one-unit lengths [__calculate_cooldown] adds, in microseconds. *)
Definition unit_length (u : Units) : Z :=
  match u with
  | DAY => us_per_day
  | HOUR => 3600 * us_per_second
  | MINUTE => 60 * us_per_second
  | SECOND => us_per_second
  | _ => 0
  end.

(** What [write_usage] leaves in the USAGE section that held [opts]. *)
Definition persisted_options (self : RateLimiter) (opts : options) : options :=
  fold_left
    (fun o kv => assoc_set (unit_key (fst kv)) (str_int (snd kv)) o)
    (usage self)
    (assoc_set "latest_time" (str_datetime (latest_time self)) opts).

(** The count that [__init__] loads for a unit from the options of a
    USAGE section, if it loads one. *)
Definition loadable (opts : options) (u : Units) : option Z :=
  match assoc_get (unit_key u) opts with
  | Some v =>
      if isdigit v then
        match int_str v with Ok n => Some n | Raise _ => None end
      else None
  | None => None
  end.

(** A limiter whose flushed state a later construction reads back: both
    sections exist, the options of USAGE are distinct, every count USAGE
    would load belongs to a tracked unit, and the usage map is a [dict]
    of counts. *)
Definition persistable (self : RateLimiter) : Prop :=
  "LIMITS" ∈ sections (config self) /\
  (exists opts,
     assoc_get "USAGE" (config self) = Some opts /\
     NoDup (keys opts) /\
     forall u n, loadable opts u = Some n -> tracked self u) /\
  NoDup (keys (usage self)) /\
  (forall u n, assoc_get u (usage self) = Some n -> 0 <= n).

(** Persist and reload: construct at [path], make the requests, flush,
    construct again at [path]; the second limiter has the counts and the
    last-operation time of the first. *)
Definition round_trips {A} (path : string) (w : World)
    (funcs : list (Eff World A)) : Prop :=
  forall self w1 self' w2,
    init (Some path) w = (Ok self, w1) ->
    requests funcs (self, w1) = (Ok tt, (self', w2)) ->
    valid_datetime (latest_time self') = true ->
    exists flushed w3 reloaded w4,
      write_usage (self', w2) = (Ok tt, (flushed, w3)) /\
      init (Some path) w3 = (Ok reloaded, w4) /\
      (forall u, assoc_get u (usage reloaded) = assoc_get u (usage self')) /\
      latest_time reloaded = latest_time self'.

(** The guard of [update_limits] on one keyword argument: the keyword
    parses to a unit and the value is the class [int]. *)
Definition passes_guard (kv : string * pyobj) : bool :=
  bool_decide (parse_unit (fst kv) <> None) && is_class_int (snd kv).

(** The states a caller can bring a limiter into that was constructed
    without a configuration file. *)
Inductive fresh_reachable : RateLimiter * World -> Prop :=
| fresh_init w self w' :
    init None w = (Ok self, w') -> fresh_reachable (self, w')
| fresh_update_limits kwargs s r s' :
    fresh_reachable s -> update_limits kwargs s = (r, s') -> fresh_reachable s'
| fresh_request (func : Eff World unit) s r s' :
    fresh_reachable s -> request func s = (r, s') -> fresh_reachable s'
| fresh_write_usage s r s' :
    fresh_reachable s -> write_usage s = (r, s') -> fresh_reachable s'.

(** A wrapped call that returns and leaves the clock as it is. *)
Definition returns_in_no_time {A} (func : Eff World A) : Prop :=
  forall w, exists out w', func w = (Ok out, w') /\ clock w' = clock w.

(** The states that calls of the public methods lead to: construction,
    then any sequence of [update_limits], [request] and [write_usage]
    (which is also [__exit__]). *)
Inductive operated : RateLimiter * World -> Prop :=
| op_init cfg w self w' :
    init cfg w = (Ok self, w') -> operated (self, w')
| op_update_limits kwargs s r s' :
    operated s -> update_limits kwargs s = (r, s') -> operated s'
| op_request (func : Eff World unit) s r s' :
    operated s -> request func s = (r, s') -> operated s'
| op_write_usage s r s' :
    operated s -> write_usage s = (r, s') -> operated s'.

(** ** Sample limiters and worlds *)

Definition at_time (t : datetime) (fs : list (string * Config)) : World :=
  mk_World (list_to_map fs) (fun _ => t) 0 [].

(** A clock that advances one second per reading. *)
Definition ticking (fs : list (string * Config)) : World :=
  mk_World (list_to_map fs)
    (fun n => mk_datetime 2024 1 1 0 0 (Z.of_nat n) 0) 0 [].

Definition noon : datetime := mk_datetime 2024 1 1 12 0 0 0.
Definition next_midnight : datetime := mk_datetime 2024 1 2 0 0 0 0.

(** One request per day allowed, one made at noon. *)
Definition day_spent : RateLimiter :=
  mk_RateLimiter "limits.ini"
    [("LIMITS", [("day", "1")]); ("USAGE", [])] [(DAY, 1)] noon.

(** Minute listed before day, as a LIMITS section may list them. *)
Definition minute_then_day : RateLimiter :=
  mk_RateLimiter "limits.ini"
    [("LIMITS", [("minute", "8"); ("day", "800")]); ("USAGE", [])]
    [(MINUTE, 3); (DAY, 7)] (mk_datetime 2024 1 1 10 5 0 0).

(** The same counters, day listed before minute. *)
Definition day_then_minute : RateLimiter :=
  mk_RateLimiter "limits.ini"
    [("LIMITS", [("day", "800"); ("minute", "8")]); ("USAGE", [])]
    [(DAY, 7); (MINUTE, 3)] (mk_datetime 2024 1 1 10 5 0 0).

Definition a_day_later : datetime := mk_datetime 2024 1 2 10 5 30 0.

Definition ten_am : datetime := mk_datetime 2024 1 1 10 0 0 0.
Definition eleven_am : datetime := mk_datetime 2024 1 1 11 0 0 0.
Definition at_ten : RateLimiter :=
  mk_RateLimiter "limits.ini" [("LIMITS", [("day", "5")]); ("USAGE", [])]
    [(DAY, 0)] ten_am.

(** A file whose USAGE section was written before LIMITS was edited. *)
Definition stale_usage_file : Config :=
  [("LIMITS", [("day", "5")]);
   ("USAGE", [("latest_time", "2024-01-01 12:00:00"); ("minute", "3")])].

Definition two_per_minute_file : Config := [("LIMITS", [("minute", "2")])].

(** Two requests per minute allowed; the limiter as [__init__] builds it
    from [two_per_minute_file]. *)
Definition two_per_minute : RateLimiter :=
  mk_RateLimiter "limits.ini"
    [("LIMITS", [("minute", "2")]); ("USAGE", [])] [(MINUTE, 0)] noon.

Definition two_per_minute_world : World :=
  at_time noon [("limits.ini", two_per_minute_file)].

(** A file that a limiter without limits has left behind. *)
Definition usage_only_file : Config :=
  [("USAGE", [("latest_time", "2024-01-01 00:00:00")])].

(** * Properties *)

(** ** Dictionaries *)

Section AssocFacts.
Context {K V : Type} `{EqDecision K}.
Implicit Types (k : K) (v : V) (d : list (K * V)).

Lemma assoc_get_set_eq k v d : assoc_get k (assoc_set k v d) = Some v.
Proof.
  induction d as [|[k' v'] d IH]; simpl.
  - by rewrite decide_True.
  - destruct (decide (k = k')) as [->|Hne]; simpl.
    + by rewrite decide_True.
    + by rewrite decide_False.
Qed.

Lemma assoc_get_set_ne k k' v d :
  k <> k' -> assoc_get k' (assoc_set k v d) = assoc_get k' d.
Proof.
  intros Hne. induction d as [|[k0 v0] d IH]; simpl.
  - by rewrite decide_False.
  - destruct (decide (k = k0)) as [->|Hne0]; simpl.
    + by rewrite !decide_False.
    + destruct (decide (k' = k0)); [done | apply IH].
Qed.

Lemma assoc_get_set k k' v d :
  assoc_get k' (assoc_set k v d)
  = if decide (k = k') then Some v else assoc_get k' d.
Proof.
  destruct (decide (k = k')) as [->|Hne].
  - apply assoc_get_set_eq.
  - by apply assoc_get_set_ne.
Qed.

Lemma assoc_get_Some_keys k v d : assoc_get k d = Some v -> k ∈ keys d.
Proof.
  induction d as [|[k' v'] d IH]; simpl; [done|].
  destruct (decide (k = k')) as [->|Hne]; intros Hg.
  - apply list_elem_of_here.
  - apply list_elem_of_further, IH, Hg.
Qed.

Lemma assoc_get_None_keys k d : assoc_get k d = None <-> k ∉ keys d.
Proof.
  induction d as [|[k' v'] d IH]; simpl.
  - split; [intros _; apply not_elem_of_nil | done].
  - rewrite not_elem_of_cons. destruct (decide (k = k')) as [->|Hne].
    + split; [done | intros [? _]; done].
    + rewrite IH. tauto.
Qed.

Lemma assoc_mem_keys k d : assoc_mem k d = true <-> k ∈ keys d.
Proof.
  unfold assoc_mem. destruct (assoc_get k d) as [v|] eqn:Hg.
  - split; [intros _; eapply assoc_get_Some_keys, Hg | done].
  - apply assoc_get_None_keys in Hg. split; [done | tauto].
Qed.

(** Assigning to a key that is present leaves the keys as they are. *)
Lemma keys_assoc_set_mem k v d : k ∈ keys d -> keys (assoc_set k v d) = keys d.
Proof.
  induction d as [|[k' v'] d IH]; simpl.
  - intros Hin. by apply elem_of_nil in Hin.
  - destruct (decide (k = k')) as [->|Hne]; simpl; [done|].
    intros Hin. apply elem_of_cons in Hin as [?|Hin]; [done|].
    f_equal. by apply IH.
Qed.

Lemma keys_assoc_set_new k v d : k ∉ keys d -> keys (assoc_set k v d) = (keys d ++ [k])%list.
Proof.
  induction d as [|[k' v'] d IH]; simpl; [done|].
  rewrite not_elem_of_cons. intros [Hne Hin].
  rewrite decide_False by done. simpl. f_equal. by apply IH.
Qed.

Lemma elem_of_keys_assoc_set k k' v d :
  k' ∈ keys (assoc_set k v d) <-> k' = k \/ k' ∈ keys d.
Proof.
  destruct (decide (k ∈ keys d)) as [Hin|Hin].
  - rewrite keys_assoc_set_mem by done. split; [tauto|].
    intros [->|?]; done.
  - rewrite keys_assoc_set_new by done. rewrite elem_of_app, list_elem_of_singleton.
    tauto.
Qed.

Lemma NoDup_keys_assoc_set k v d : NoDup (keys d) -> NoDup (keys (assoc_set k v d)).
Proof.
  intros Hnd. destruct (decide (k ∈ keys d)) as [Hin|Hin].
  - by rewrite keys_assoc_set_mem.
  - rewrite keys_assoc_set_new by done.
    apply NoDup_app. split; [done|]. split.
    + intros x Hx Hx'. apply list_elem_of_singleton in Hx'. by subst.
    + apply NoDup_singleton.
Qed.
End AssocFacts.

(** ** The cooldown computation *)

(** C7. Computing the cooldown for YEAR or for MONTH never returns a
    number: the call of [timedelta] with [years] or [months] raises, so no
    limiter state gives a result for either unit. *)
Theorem calculate_cooldown_year_month_fails (self : RateLimiter) :
  is_Ok (calculate_cooldown self YEAR) = false /\
  is_Ok (calculate_cooldown self MONTH) = false.
Proof.
  unfold calculate_cooldown.
  split;
    (destruct (fold_left _ all_Units _) as [l|e]; simpl; [|reflexivity];
     destruct (datetime_of_list l) as [t|e]; reflexivity).
Qed.

(** With a valid last-operation time the failure is the [TypeError] of
    the unknown keyword. *)
Lemma calculate_cooldown_year_TypeError (self : RateLimiter) :
  valid_datetime (latest_time self) = true ->
  calculate_cooldown self YEAR = timedelta "years" 1 /\
  calculate_cooldown self MONTH = timedelta "months" 1.
Proof.
  intros Hv. unfold calculate_cooldown.
  destruct (latest_time self) as [y m d hh mm ss us]. cbn.
  unfold checked.
  assert (Hv' : valid_datetime (mk_datetime y m d hh mm ss 0) = true).
  { unfold valid_datetime in *. cbn in *.
    repeat (apply andb_prop in Hv as [Hv ?]).
    repeat (apply andb_true_intro; split); done. }
  rewrite Hv'. done.
Qed.

(** C1. One request per day is allowed and one was made at noon: the
    code answers a full day, 86400 seconds, although the next day starts
    43200 seconds after the last operation. *)
Theorem cooldown_day_spent_is_a_full_day :
  cooldown day_spent = Ok (86400 * us_per_second) /\
  instant next_midnight - instant (latest_time day_spent) = 43200 * us_per_second.
Proof. split; reflexivity. Qed.

(** ** Rollover in [request] *)

(** C2. Usage lists MINUTE before DAY and the clock has passed into the
    next day: the request succeeds and the day boundary is detected, yet
    the minute counter ends at 0, not at 1, because it was incremented
    before the reset that DAY triggers. *)
Theorem request_leaves_finer_counter_at_zero :
  let s := (minute_then_day, at_time a_day_later []) in
  fst (is_after DAY s) = Ok true /\
  fst (request (eret tt) s) = Ok tt /\
  usage (fst (snd (request (eret tt) s))) = [(MINUTE, 0); (DAY, 1)].
Proof. repeat split; reflexivity. Qed.

(** ** Updating the limits *)

(** The loop of [update_limits] never changes the object or the world:
    its storing branch raises before it assigns. *)
Lemma update_limits_loop_state kwargs (s : RateLimiter * World) :
  snd (update_limits_loop kwargs s) = s.
Proof.
  induction kwargs as [|[key v] rest IH]; simpl; [done|].
  destruct (bool_decide (parse_unit key <> None) && is_class_int v); [|done].
  unfold ebind, get_self, elift. simpl.
  destruct (config_getitem (config (fst s)) "LIMITS"); done.
Qed.

Lemma update_limits_config kwargs (s : RateLimiter * World) :
  fst (snd (update_limits kwargs s)) = fst s.
Proof.
  unfold update_limits, ebind.
  pose proof (update_limits_loop_state kwargs s) as Hs.
  destruct (update_limits_loop kwargs s) as [[[]|e] s']; simpl in *; subst; done.
Qed.

(** C3. Whatever the keyword and the integer passed, [update_limits]
    returns normally with the limiter unchanged: the integer is not
    stored in LIMITS, and the file is written with the limits as they
    were. *)
Theorem update_limits_ignores_integers (key : string) (n : Z)
    (self : RateLimiter) (w : World) :
  update_limits [(key, PyInt n)] (self, w)
  = (Ok tt, (self, written (cfg_file self) (config self) w)).
Proof.
  unfold update_limits, ebind. simpl.
  rewrite andb_false_r. reflexivity.
Qed.

(** ** Construction *)

(** C9. LIMITS names the day and the persisted USAGE section names the
    minute: the limiter that [__init__] builds tracks a unit that is not
    limited and limits a unit that is not tracked, and [cooldown] raises
    on the missing entry. *)
Theorem init_keeps_stale_usage :
  exists self w',
    init (Some "limits.ini") (at_time noon [("limits.ini", stale_usage_file)])
    = (Ok self, w') /\
    limited self DAY /\ ~ tracked self DAY /\
    tracked self MINUTE /\ ~ limited self MINUTE /\
    cooldown self = Raise (KeyError "DAY").
Proof.
  eexists _, _. split; [reflexivity|].
  unfold limited, tracked, limits_of. cbn.
  repeat split.
  - exists "day". split; [apply list_elem_of_here | reflexivity].
  - intros Hin. apply list_elem_of_singleton in Hin. discriminate.
  - apply list_elem_of_here.
  - intros (key & Hin & Hp). apply list_elem_of_singleton in Hin. subst key.
    discriminate.
Qed.

Lemma sections_config_setitem c sec d sec' :
  sec' ∈ sections (config_setitem c sec d) <-> sec' = sec \/ sec' ∈ sections c.
Proof. apply elem_of_keys_assoc_set. Qed.



(** ** The boundary-crossed check *)


(** For every unit but YEAR the check returns what [crossedb] computes,
    after one reading of the clock. *)
Lemma is_after_crossedb (unit : Units) (self : RateLimiter) (w : World) :
  unit <> YEAR ->
  is_after unit (self, w)
  = (Ok (crossedb unit (latest_time self) (clock w (ticks w))), (self, tick w)).
Proof.
  intros Hunit.
  unfold is_after, ebind, get_self, in_world, datetime_now, elift, crossedb. simpl.
  destruct (latest_time self) as [y m d hh mm ss us].
  destruct (clock w (ticks w)) as [y' m' d' hh' mm' ss' us'].
  destruct unit; [done| | | | |]; cbn;
    repeat match goal with
    | |- context [?a <? ?b] => destruct (Z.ltb_spec a b); cbn
    | |- context [?a =? ?b] => destruct (Z.eqb_spec a b); cbn
    end; reflexivity.
Qed.

Lemma crossedb_spec (unit : Units) (latest now : datetime) :
  crossedb unit latest now = true <-> crossed unit latest now.
Proof.
  unfold crossedb, crossed.
  rewrite andb_true_iff, negb_true_iff, Z.eqb_neq, forallb_forall.
  split; intros [Hco Hown]; (split; [|done]).
  - intros u Hu. specialize (Hco u).
    rewrite negb_true_iff, Z.ltb_ge in Hco. apply Hco.
    destruct unit, u; cbn in *; try lia; auto 10.
  - intros u Hin. rewrite negb_true_iff, Z.ltb_ge. apply Hco.
    destruct unit, u; cbn in *; intuition (try discriminate; lia).
Qed.



(** For YEAR the loop body never runs and the loop variable is read
    unbound. *)
Lemma is_after_year_raises (self : RateLimiter) (w : World) :
  is_after YEAR (self, w) = (Raise (UnboundLocalError "i"), (self, tick w)).
Proof. reflexivity. Qed.

(** ** Units and their persisted names *)

Lemma parse_unit_unit_key (u : Units) : parse_unit (unit_key u) = Some u.
Proof. by destruct u. Qed.

Lemma parse_unit_Some (key : string) (u : Units) :
  parse_unit key = Some u -> key = unit_key u.
Proof.
  unfold parse_unit.
  repeat match goal with
  | |- context [String.eqb ?a ?b] => destruct (String.eqb_spec a b); [subst|]
  end; intros [= <-]; reflexivity.
Qed.

Lemma unit_key_inj (u u' : Units) : unit_key u = unit_key u' -> u = u'.
Proof.
  intros Heq. apply (f_equal parse_unit) in Heq.
  rewrite !parse_unit_unit_key in Heq. congruence.
Qed.

Lemma unit_key_not_latest_time (u : Units) : unit_key u <> "latest_time".
Proof. by destruct u. Qed.

Lemma optionxform_unit_key (u : Units) : optionxform (unit_key u) = unit_key u.
Proof. by destruct u. Qed.

(** ** Flushing the usage *)

Lemma assoc_set_set {K V} `{EqDecision K} (k : K) (v1 v2 : V) d :
  assoc_set k v2 (assoc_set k v1 d) = assoc_set k v2 d.
Proof.
  induction d as [|[k' v'] d IH]; simpl.
  - by rewrite decide_True.
  - destruct (decide (k = k')) as [->|Hne]; simpl.
    + by rewrite decide_True.
    + rewrite decide_False by done. by rewrite IH.
Qed.

Lemma write_usage_loop_ok items c opts :
  assoc_get "USAGE" c = Some opts ->
  write_usage_loop items c
  = Ok (assoc_set "USAGE"
          (fold_left (fun o kv => assoc_set (unit_key (fst kv)) (str_int (snd kv)) o)
             items opts) c).
Proof.
  revert c opts. induction items as [|[u n] items IH]; intros c opts Hget; simpl.
  - f_equal. clear -Hget. induction c as [|[k v] c IH]; simpl in *; [done|].
    destruct (decide ("USAGE" = k)) as [<-|Hne]; [congruence|].
    f_equal. by apply IH.
  - unfold option_setitem, config_getitem. rewrite Hget. simpl.
    erewrite IH by apply assoc_get_set_eq.
    by rewrite assoc_set_set.
Qed.

(** [write_usage] succeeds on a limiter whose configuration has a USAGE
    section: it rewrites that section and writes the file. *)
Lemma write_usage_ok (self : RateLimiter) (w : World) opts :
  assoc_get "USAGE" (config self) = Some opts ->
  write_usage (self, w)
  = (Ok tt,
     (set_config (assoc_set "USAGE" (persisted_options self opts) (config self)) self,
      written (cfg_file self)
        (assoc_set "USAGE" (persisted_options self opts) (config self)) w)).
Proof.
  intros Hget.
  unfold write_usage, ebind, get_self, elift, modify_self, in_world. simpl.
  unfold option_setitem, config_getitem. rewrite Hget. simpl.
  erewrite write_usage_loop_ok by apply assoc_get_set_eq. simpl.
  rewrite assoc_set_set. reflexivity.
Qed.

Lemma persisted_fold_other (items : list (Units * Z)) (o : options) (k : string) :
  (forall u, u ∈ keys items -> k <> unit_key u) ->
  assoc_get k
    (fold_left (fun o kv => assoc_set (unit_key (fst kv)) (str_int (snd kv)) o)
       items o)
  = assoc_get k o.
Proof.
  revert o. induction items as [|[u n] items IH]; intros o Hk; simpl; [done|].
  rewrite IH.
  - apply assoc_get_set_ne. intros Heq. apply (Hk u); [apply list_elem_of_here|done].
  - intros u' Hu'. apply Hk. by apply list_elem_of_further.
Qed.

Lemma persisted_fold_unit (items : list (Units * Z)) (o : options) u n :
  NoDup (keys items) ->
  assoc_get u items = Some n ->
  assoc_get (unit_key u)
    (fold_left (fun o kv => assoc_set (unit_key (fst kv)) (str_int (snd kv)) o)
       items o)
  = Some (str_int n).
Proof.
  revert o. induction items as [|[u' n'] items IH]; intros o Hnd Hget; simpl in *.
  - done.
  - apply NoDup_cons in Hnd as [Hnotin Hnd].
    destruct (decide (u = u')) as [->|Hne].
    + injection Hget as ->.
      rewrite persisted_fold_other; [apply assoc_get_set_eq|].
      intros u Hu Heq. apply unit_key_inj in Heq. by subst.
    + by apply IH.
Qed.

(** The persisted section holds the count of every tracked unit and the
    last-operation time. *)
Lemma persisted_options_unit self opts u n :
  NoDup (keys (usage self)) ->
  assoc_get u (usage self) = Some n ->
  assoc_get (unit_key u) (persisted_options self opts) = Some (str_int n).
Proof. apply persisted_fold_unit. Qed.

Lemma persisted_options_latest_time self opts :
  assoc_get "latest_time" (persisted_options self opts)
  = Some (str_datetime (latest_time self)).
Proof.
  unfold persisted_options. rewrite persisted_fold_other.
  - apply assoc_get_set_eq.
  - intros u _ Heq. by apply (unit_key_not_latest_time u).
Qed.

Lemma persisted_options_untracked self opts k :
  k <> "latest_time" ->
  (forall u, tracked self u -> k <> unit_key u) ->
  assoc_get k (persisted_options self opts) = assoc_get k opts.
Proof.
  intros Hk Hu. unfold persisted_options. rewrite persisted_fold_other by done.
  by apply assoc_get_set_ne.
Qed.

Lemma assoc_get_is_Some_keys {K V} `{EqDecision K} (k : K) (d : list (K * V)) :
  k ∈ keys d -> exists v, assoc_get k d = Some v.
Proof.
  intros Hin. destruct (assoc_get k d) as [v|] eqn:Hg; [by exists v|].
  by apply assoc_get_None_keys in Hg.
Qed.

(** ** Failure of the wrapped operation *)

(** When the wrapped operation raises, [request] raises the same
    exception after a flush that leaves the counters and the
    last-operation time as they were. *)
Lemma request_failure {A : Type}
    (func : Eff World A) (self : RateLimiter) (w : World) (e : exn) (w1 : World) :
  func w = (Raise e, w1) ->
  "USAGE" ∈ sections (config self) ->
  NoDup (keys (usage self)) ->
  exists self',
    request func (self, w)
    = (Raise e, (self', written (cfg_file self) (config self') w1)) /\
    usage self' = usage self /\
    latest_time self' = latest_time self /\
    option_getitem (config self') "USAGE" "latest_time"
    = Ok (str_datetime (latest_time self)) /\
    forall u n, assoc_get u (usage self) = Some n ->
      option_getitem (config self') "USAGE" (name u) = Ok (str_int n).
Proof.
  intros Hfunc Hsec Hnd.
  apply assoc_get_is_Some_keys in Hsec as [opts Hopts].
  exists (set_config
            (assoc_set "USAGE" (persisted_options self opts) (config self)) self).
  split; [|split; [|split; [|split]]].
  - unfold request, etry, ebind, in_world. simpl. rewrite Hfunc.
    rewrite (write_usage_ok self w1 opts Hopts). reflexivity.
  - reflexivity.
  - reflexivity.
  - unfold option_getitem, config_getitem. simpl.
    rewrite assoc_get_set_eq. simpl.
    change (optionxform "latest_time") with "latest_time".
    by rewrite persisted_options_latest_time.
  - intros u n Hget. unfold option_getitem, config_getitem. simpl.
    rewrite assoc_get_set_eq. simpl.
    change (optionxform (name u)) with (unit_key u).
    by rewrite (persisted_options_unit self opts u n).
Qed.

(** ** The accounting loop of [request] *)

Lemma reset_usage_loop_keys units unit (us : list (Units * Z)) :
  keys (reset_usage_loop units unit us) = keys us.
Proof.
  revert us. induction units as [|u0 units IH]; intros us; simpl; [done|].
  destruct (assoc_mem u0 us) eqn:Hmem; simpl; [|apply IH].
  apply assoc_mem_keys in Hmem.
  destruct (decide (u0 = unit)).
  - by apply keys_assoc_set_mem.
  - rewrite IH. by apply keys_assoc_set_mem.
Qed.

(** A reset leaves a counter as it is or puts it to zero. *)
Lemma reset_usage_loop_get units unit (us : list (Units * Z)) u c :
  assoc_get u us = Some c ->
  assoc_get u (reset_usage_loop units unit us) = Some c \/
  assoc_get u (reset_usage_loop units unit us) = Some 0.
Proof.
  revert us c. induction units as [|u0 units IH]; intros us c Hget; simpl.
  - by left.
  - destruct (assoc_mem u0 us); simpl; [|by apply IH].
    assert (Hset : assoc_get u (assoc_set u0 0 us) = Some c \/
                   assoc_get u (assoc_set u0 0 us) = Some 0).
    { rewrite assoc_get_set. destruct (decide (u0 = u)); [by right | by left]. }
    destruct (decide (u0 = unit)); [done|].
    destruct Hset as [Hset|Hset].
    + by apply IH.
    + right. destruct (IH _ _ Hset) as [H|H]; exact H.
Qed.

(** The check reads the clock once and changes nothing else. *)
Lemma is_after_state unit (self : RateLimiter) (w : World) :
  snd (is_after unit (self, w)) = (self, tick w).
Proof. reflexivity. Qed.

(** One turn of the loop, for the unit [h]. *)
Lemma request_loop_cons h rest (self : RateLimiter) (w : World) :
  request_loop (h :: rest) (self, w)
  = match fst (is_after h (self, w)) with
    | Raise e => (Raise e, (self, tick w))
    | Ok after =>
        let self1 :=
          if after
          then set_usage (reset_usage_loop (rev all_Units) h (usage self)) self
          else self in
        match assoc_get h (usage self1) with
        | None => (Raise (KeyError (name h)), (self1, tick w))
        | Some n =>
            request_loop rest
              (set_usage (assoc_set h (n + 1) (usage self1)) self1, tick w)
        end
    end.
Proof.
  cbn [request_loop]. unfold ebind at 1.
  pose proof (is_after_state h self w) as Hst.
  destruct (is_after h (self, w)) as [[after|e] s1]; simpl in Hst; subst s1;
    simpl; [|reflexivity].
  destruct after; unfold ebind, reset_usage, eret, get_self, modify_self,
    elift, usage_getitem; simpl.
  - destruct (assoc_get h _); reflexivity.
  - destruct (assoc_get h _); reflexivity.
Qed.

(** The loop touches the counters and the clock, nothing else. *)
Lemma request_loop_frame units (self : RateLimiter) (w : World) r self' w' :
  request_loop units (self, w) = (r, (self', w')) ->
  config self' = config self /\ cfg_file self' = cfg_file self /\
  latest_time self' = latest_time self /\
  keys (usage self') = keys (usage self) /\
  files w' = files w /\ clock w' = clock w /\ stdout w' = stdout w.
Proof.
  revert self w. induction units as [|h rest IH]; intros self w.
  - intros [= <- <- <-]. done.
  - rewrite request_loop_cons.
    destruct (fst (is_after h (self, w))) as [after|e].
    + set (self1 := if after then _ else self).
      assert (Hself1 : config self1 = config self /\ cfg_file self1 = cfg_file self /\
                latest_time self1 = latest_time self /\
                keys (usage self1) = keys (usage self)).
      { subst self1. destruct after; [|done].
        cbn [set_usage config cfg_file latest_time usage].
        by rewrite reset_usage_loop_keys. }
      destruct Hself1 as (Hc & Hf & Hl & Hk).
      simpl. destruct (assoc_get h (usage self1)) as [n|] eqn:Hget.
      * intros Hrun. apply IH in Hrun as (? & ? & ? & Hk' & ? & ? & ?). simpl in *.
        rewrite keys_assoc_set_mem in Hk' by (eapply assoc_get_Some_keys, Hget).
        repeat split; congruence.
      * intros [= <- <- <-]. done.
    + intros [= <- <- <-]. done.
Qed.

(** After the loop has run to its end, a unit it visited has its old
    count plus one, or 1, or 0; a unit it did not visit has its old count
    or 0. *)
Lemma request_loop_counts units (self : RateLimiter) (w : World) self' w' :
  NoDup units ->
  request_loop units (self, w) = (Ok tt, (self', w')) ->
  forall u c, assoc_get u (usage self) = Some c ->
    exists c', assoc_get u (usage self') = Some c' /\
      ((u ∈ units /\ (c' = c + 1 \/ c' = 1 \/ c' = 0)) \/
       ((u ∉ units) /\ (c' = c \/ c' = 0))).
Proof.
  revert self w. induction units as [|h rest IH]; intros self w Hnd.
  - intros [= <- <-] u c Hget. exists c. split; [done|].
    right. split; [apply not_elem_of_nil | by left].
  - apply NoDup_cons in Hnd as [Hh Hnd].
    rewrite request_loop_cons.
    destruct (fst (is_after h (self, w))) as [after|e]; [|discriminate].
    set (self1 := if after then _ else self). simpl.
    assert (Hreset : forall u c, assoc_get u (usage self) = Some c ->
              assoc_get u (usage self1) = Some c \/ assoc_get u (usage self1) = Some 0).
    { intros u c Hget. subst self1. destruct after; [|by left].
      cbn [set_usage usage]. by apply reset_usage_loop_get. }
    destruct (assoc_get h (usage self1)) as [n|] eqn:Hn; [|discriminate].
    intros Hrun u c Hget.
    destruct (decide (u = h)) as [->|Hne].
    + (* the unit of this turn *)
      destruct (IH _ _ Hnd Hrun h (n + 1)) as (c' & Hc' & Hcase).
      { simpl. apply assoc_get_set_eq. }
      exists c'. split; [done|]. left. split; [apply list_elem_of_here|].
      destruct Hcase as [[Hin _]|[_ Hcase]]; [done|].
      destruct (Hreset h c Hget) as [H1|H1]; rewrite H1 in Hn;
        injection Hn as <-; lia.
    + destruct (Hreset u c Hget) as [H1|H1].
      * destruct (IH _ _ Hnd Hrun u c) as (c' & Hc' & Hcase).
        { simpl. by rewrite assoc_get_set_ne. }
        exists c'. split; [done|].
        destruct Hcase as [[Hin Hcase]|[Hnotin Hcase]].
        -- left. split; [by apply list_elem_of_further | done].
        -- right. split; [|done]. apply not_elem_of_cons. done.
      * destruct (IH _ _ Hnd Hrun u 0) as (c' & Hc' & Hcase).
        { simpl. by rewrite assoc_get_set_ne. }
        exists c'. split; [done|].
        destruct Hcase as [[Hin Hcase]|[Hnotin Hcase]].
        -- left. split; [by apply list_elem_of_further | lia].
        -- right. split; [by apply not_elem_of_cons | lia].
Qed.

(** What a successful [request] did: the operation returned, the loop
    ran to its end, and the clock was read for the new last-operation
    time. *)
Lemma request_Ok {A} (func : Eff World A) (self : RateLimiter) (w : World)
    out self' w' :
  request func (self, w) = (Ok out, (self', w')) ->
  exists w1 self1 w2,
    func w = (Ok out, w1) /\
    request_loop (keys (usage self)) (self, w1) = (Ok tt, (self1, w2)) /\
    self' = set_latest_time (clock w2 (ticks w2)) self1 /\
    w' = tick w2.
Proof.
  unfold request, etry, ebind, in_world, get_self. simpl.
  destruct (func w) as [[o|e] w1]; simpl.
  - destruct (request_loop (keys (usage self)) (self, w1)) as [[[]|e] [self1 w2]] eqn:Hloop;
      simpl.
    + intros [= <- <- <-]. by exists w1, self1, w2.
    + unfold write_usage, ebind, get_self, elift. simpl.
      destruct (option_setitem _ _ _ _); simpl; [|discriminate].
      destruct (write_usage_loop _ _); simpl; discriminate.
  - unfold write_usage, ebind, get_self, elift. simpl.
    destruct (option_setitem _ _ _ _); simpl; [|discriminate].
    destruct (write_usage_loop _ _); simpl; discriminate.
Qed.

(** ** Limits are advisory *)

(** When [__calculate_cooldown] returns, the unit is one of DAY, HOUR,
    MINUTE and SECOND, and it returns one unit of time less the sub-second
    part of the last-operation time. *)
Lemma calculate_cooldown_value (self : RateLimiter) (u : Units) (r : Z) :
  calculate_cooldown self u = Ok r ->
  r = unit_length u - microsecond (latest_time self) /\ us_per_second <= unit_length u.
Proof.
  unfold calculate_cooldown.
  destruct (latest_time self) as [y m d hh mm ss us]. cbn.
  unfold checked. destruct (valid_datetime _); [|discriminate]. cbn.
  destruct u; cbn; try discriminate;
    unfold datetime_add;
    match goal with |- context [if ?c then _ else _] => destruct c end;
    try discriminate; intros [= <-];
    unfold instant, unit_length, toordinal, us_per_day, us_per_second; cbn;
    lia.
Qed.

Lemma valid_datetime_microsecond (t : datetime) :
  valid_datetime t = true -> 0 <= microsecond t <= 999999.
Proof.
  unfold valid_datetime. intros Hv.
  repeat (apply andb_prop in Hv as [Hv ?]). lia.
Qed.

(** A zero cooldown means the search found every limited unit strictly
    below its maximum. *)
Lemma cooldown_loop_zero (self : RateLimiter) (limits : list string) :
  valid_datetime (latest_time self) = true ->
  cooldown_loop self limits = Ok 0 ->
  forall key u, key ∈ limits -> parse_unit key = Some u ->
    exists n text limit,
      assoc_get u (usage self) = Some n /\
      option_getitem (config self) "LIMITS" key = Ok text /\
      int_str text = Ok limit /\ n < limit.
Proof.
  intros Hv. apply valid_datetime_microsecond in Hv.
  induction limits as [|k rest IH]; intros Hzero key u Hin Hparse.
  - by apply elem_of_nil in Hin.
  - simpl in Hzero.
    destruct (parse_unit k) as [uk|] eqn:Hk.
    + unfold usage_getitem in Hzero.
      destruct (assoc_get uk (usage self)) as [n|] eqn:Hn; [|discriminate].
      simpl in Hzero.
      destruct (option_getitem (config self) "LIMITS" k) as [text|] eqn:Htext;
        [|discriminate].
      simpl in Hzero.
      destruct (int_str text) as [limit|] eqn:Hlimit; [|discriminate].
      simpl in Hzero.
      destruct (Z.leb_spec limit n) as [Hle|Hlt].
      * apply calculate_cooldown_value in Hzero as [Hzero Hlen].
        unfold us_per_second in Hlen. lia.
      * apply elem_of_cons in Hin as [->|Hin].
        -- assert (u = uk) as -> by congruence. by exists n, text, limit.
        -- by apply IH.
    + apply elem_of_cons in Hin as [->|Hin]; [congruence|]. by apply IH.
Qed.

Lemma cooldown_zero_all_below (self : RateLimiter) :
  valid_datetime (latest_time self) = true ->
  cooldown self = Ok 0 -> all_below self.
Proof.
  intros Hv Hzero key u Hin Hparse.
  unfold cooldown, config_getitem, limits_of in *.
  destruct (assoc_get "LIMITS" (config self)) as [opts|] eqn:Hopts;
    [|discriminate].
  simpl in *.
  destruct (cooldown_loop_zero self (keys opts) Hv Hzero key u Hin Hparse)
    as (n & text & limit & Hn & Htext & Hlimit & Hlt).
  exists n, text, limit. repeat split; try done.
  unfold option_getitem, config_getitem in Htext. rewrite Hopts in Htext.
  simpl in Htext.
  rewrite (parse_unit_Some _ _ Hparse), optionxform_unit_key in Htext.
  rewrite (parse_unit_Some _ _ Hparse).
  by destruct (assoc_get (unit_key u) opts); [injection Htext as ->|].
Qed.

(** Reachability through one more request. *)
Lemma reachable_request (func : Eff World unit) (s : RateLimiter * World) :
  reachable s -> reachable (snd (request func s)).
Proof.
  intros Hs. apply (reach_request func s (fst (request func s))); [done|].
  by destruct (request func s).
Qed.

(** C6, as stated, fails. Two requests per minute are allowed; three
    requests made within one minute all succeed, and the minute counter
    stands at 3. *)
Lemma three_requests_exceed_the_limit :
  ~ (forall s, reachable s -> within_limits (fst s)).
Proof.
  intros Hall.
  assert (Hinit : reachable (two_per_minute, tick two_per_minute_world)).
  { apply (reach_init (Some "limits.ini") two_per_minute_world). reflexivity. }
  do 3 apply (reachable_request (eret tt)) in Hinit.
  apply Hall in Hinit.
  specialize (Hinit "minute" "2" MINUTE 3 2).
  assert (Hle : 3 <= 2) by (apply Hinit; reflexivity).
  lia.
Qed.

(** If [cooldown] returns zero just before a request and the request
    succeeds, then after it no limited unit's count is above its maximum. *)
Lemma request_within_limits {A : Type}
    (func : Eff World A) (self : RateLimiter) (w : World)
    (out : A) (self' : RateLimiter) (w' : World) :
  NoDup (keys (usage self)) ->
  (forall u n, assoc_get u (usage self) = Some n -> 0 <= n) ->
  valid_datetime (latest_time self) = true ->
  cooldown self = Ok 0 ->
  request func (self, w) = (Ok out, (self', w')) ->
  within_limits self'.
Proof.
  intros Hnd Hnonneg Hv Hzero Hreq.
  apply cooldown_zero_all_below in Hzero; [|done].
  apply request_Ok in Hreq as (w1 & self1 & w2 & _ & Hloop & -> & _).
  pose proof (request_loop_frame _ _ _ _ _ _ Hloop) as (Hcfg & _).
  pose proof (request_loop_counts _ _ _ _ _ Hnd Hloop) as Hcounts.
  intros key text u n' limit Htext Hparse Hn' Hlimit.
  assert (Hlim : limits_of (set_latest_time (clock w2 (ticks w2)) self1)
                 = limits_of self).
  { unfold limits_of. simpl. by rewrite Hcfg. }
  rewrite Hlim in Htext. simpl in Hn'.
  destruct (Hzero key u) as (n & text0 & limit0 & Hn & Htext0 & Hlimit0 & Hlt).
  { eapply assoc_get_Some_keys, Htext. }
  { done. }
  assert (text0 = text) as -> by congruence.
  assert (limit0 = limit) as -> by congruence.
  destruct (Hcounts u n Hn) as (c' & Hc' & Hcase).
  assert (c' = n') as -> by congruence.
  pose proof (Hnonneg u n Hn).
  destruct Hcase as [[_ Hcase]|[_ Hcase]]; lia.
Qed.

(** ** Numbers as text *)

Lemma is_digit_cases (c : ascii) (d : Decimal.uint) :
  is_digit c = true -> uint_of_char c (Some d) <> None.
Proof.
  destruct c as [[|] [|] [|] [|] [|] [|] [|] [|]]; try discriminate; intros _;
    discriminate.
Qed.

Lemma is_digit_not_sign_or_space (c : ascii) :
  is_digit c = true ->
  Ascii.eqb c "-" = false /\ Ascii.eqb c "+" = false /\
  Ascii.eqb c "_" = false /\ is_space c = false.
Proof.
  destruct c as [[|] [|] [|] [|] [|] [|] [|] [|]]; try discriminate; done.
Qed.

Lemma all_digits_string_of_uint (d : Decimal.uint) :
  all_digits (NilEmpty.string_of_uint d) = true.
Proof. induction d; simpl; done. Qed.

Lemma lstrip_digits (s : string) : isdigit s = true -> lstrip s = s.
Proof.
  destruct s as [|c r]; [done|]. simpl. intros Hd.
  apply andb_prop in Hd as [Hc _].
  by destruct (is_digit_not_sign_or_space c Hc) as (_ & _ & _ & ->).
Qed.

Lemma rstrip_digits (s : string) : all_digits s = true -> rstrip s = s.
Proof.
  induction s as [|c r IH]; [done|]. simpl. intros Hd.
  apply andb_prop in Hd as [Hc Hr]. rewrite (IH Hr).
  destruct (is_digit_not_sign_or_space c Hc) as (_ & _ & _ & ->).
  by destruct r.
Qed.

Lemma literal_digits_digits (s : string) :
  all_digits s = true -> literal_digits s true = Some s.
Proof.
  induction s as [|c r IH]; [done|]. simpl. intros Hd.
  apply andb_prop in Hd as [Hc Hr]. rewrite Hc, (IH Hr). done.
Qed.

Lemma uint_of_string_digits (s : string) :
  all_digits s = true -> exists d, NilEmpty.uint_of_string s = Some d.
Proof.
  induction s as [|c r IH]; simpl; [by eexists|]. intros Hd.
  apply andb_prop in Hd as [Hc Hr]. destruct (IH Hr) as [d ->].
  pose proof (is_digit_cases c d Hc) as Hsome.
  destruct (uint_of_char c (Some d)) as [d'|]; [|done].
  by exists d'.
Qed.

(** Before [int] is applied to a digit string, nothing is stripped and
    no sign is found. *)
Lemma int_str_digits (s : string) :
  isdigit s = true ->
  int_str s =
    match NilEmpty.uint_of_string s with
    | Some d => Ok (Z.of_N (N.of_uint d))
    | None => Raise (ValueError ("invalid literal for int() with base 10: " +:+ s))
    end.
Proof.
  intros Hd. unfold int_str, strip.
  rewrite (lstrip_digits s Hd).
  assert (Hall : all_digits s = true) by (by destruct s).
  rewrite (rstrip_digits s Hall).
  destruct s as [|c r]; [done|].
  simpl in Hall. apply andb_prop in Hall as [Hc Hr].
  destruct (is_digit_not_sign_or_space c Hc) as (-> & -> & _ & _).
  unfold unsigned_literal. simpl literal_digits. rewrite Hc.
  rewrite (literal_digits_digits r Hr). simpl option_map. lazy beta iota.
  by destruct (NilEmpty.uint_of_string (String c r)).
Qed.

(** A value that passes [isdigit] converts, to a count that is not
    negative. *)
Lemma int_str_isdigit (s : string) :
  isdigit s = true -> exists n, int_str s = Ok n /\ 0 <= n.
Proof.
  intros Hd. rewrite (int_str_digits s Hd).
  assert (Hall : all_digits s = true) by (by destruct s).
  destruct (uint_of_string_digits s Hall) as [d ->].
  eexists. split; [reflexivity | lia].
Qed.

Lemma str_int_nonneg (n : Z) :
  0 <= n ->
  exists d, d <> Decimal.Nil /\ str_int n = NilEmpty.string_of_uint d /\
            Z.of_N (N.of_uint d) = n.
Proof.
  intros Hn. exists (N.to_uint (Z.to_N n)).
  assert (Hnil : N.to_uint (Z.to_N n) <> Decimal.Nil).
  { destruct (Z.to_N n); [discriminate | apply DecimalPos.Unsigned.to_uint_nonnil]. }
  split; [done|]. split.
  - unfold str_int. destruct n as [|p|p]; [| |lia];
      unfold NilZero.string_of_uint; by destruct (N.to_uint _).
  - rewrite DecimalN.Unsigned.of_to. lia.
Qed.

(** What [str] writes for a count, [isdigit] accepts and [int] reads back. *)
Lemma isdigit_str_int (n : Z) : 0 <= n -> isdigit (str_int n) = true.
Proof.
  intros Hn. destruct (str_int_nonneg n Hn) as (d & Hnil & -> & _).
  pose proof (all_digits_string_of_uint d) as Hall.
  by destruct d.
Qed.

Lemma int_str_str_int (n : Z) : 0 <= n -> int_str (str_int n) = Ok n.
Proof.
  intros Hn. rewrite int_str_digits by (by apply isdigit_str_int).
  destruct (str_int_nonneg n Hn) as (d & _ & -> & Hd).
  rewrite NilEmpty.usu. by rewrite Hd.
Qed.

(** ** Timestamps as text *)

Lemma string_app_cons (x : ascii) (a b : string) :
  String x a +:+ b = String x (a +:+ b).
Proof. reflexivity. Qed.

Lemma string_app_nil_l (a : string) : EmptyString +:+ a = a.
Proof. reflexivity. Qed.

Lemma string_app_nil_r (a : string) : a +:+ EmptyString = a.
Proof.
  induction a as [|x a IH]; [done|]. by rewrite string_app_cons, IH.
Qed.

Lemma string_app_assoc (a b c : string) : (a +:+ b) +:+ c = a +:+ (b +:+ c).
Proof.
  induction a as [|x a IH]; [done|]. by rewrite !string_app_cons, IH.
Qed.

Ltac string_app := rewrite ?string_app_cons, ?string_app_nil_l.

Lemma digit_char_spec (k : Z) :
  0 <= k <= 9 ->
  is_digit (digit_char k) = true /\ digit_value (digit_char k) = k.
Proof.
  intros Hk.
  assert (Hcases : k = 0 \/ k = 1 \/ k = 2 \/ k = 3 \/ k = 4 \/ k = 5 \/
                   k = 6 \/ k = 7 \/ k = 8 \/ k = 9) by lia.
  repeat (destruct Hcases as [->|Hcases]; [done|]). by subst.
Qed.

(** Reading one more digit is reading the digits before it, then it. *)
Lemma read_digits_S (w : nat) (acc : Z) (s : string) :
  read_digits (S w) acc s =
    match read_digits w acc s with
    | Some (v, String c r) =>
        if is_digit c then Some (v * 10 + digit_value c, r) else None
    | _ => None
    end.
Proof.
  revert acc s. induction w as [|w IH]; intros acc s.
  - simpl. by destruct s.
  - change (read_digits (S (S w)) acc s)
      with (match s with
            | String c r =>
                if is_digit c then read_digits (S w) (acc * 10 + digit_value c) r
                else None
            | EmptyString => None
            end).
    destruct s as [|c r]; [done|].
    destruct (is_digit c) eqn:Hc; [|by simpl; rewrite Hc].
    rewrite IH. simpl. by rewrite Hc.
Qed.

Lemma read_digits_zero_pad_acc (w : nat) (n acc : Z) (rest : string) :
  0 <= n < 10 ^ Z.of_nat w ->
  read_digits w acc (zero_pad w n +:+ rest) = Some (acc * 10 ^ Z.of_nat w + n, rest).
Proof.
  revert n rest. induction w as [|w IH]; intros n rest Hn.
  - simpl in *. do 2 f_equal. lia.
  - rewrite read_digits_S.
    change (zero_pad (S w) n)
      with (zero_pad w (n / 10) +:+ String (digit_char (n mod 10)) EmptyString).
    rewrite string_app_assoc. string_app.
    rewrite Nat2Z.inj_succ, Z.pow_succ_r in Hn by lia.
    rewrite IH by (split; [apply Z.div_pos; lia | apply Z.div_lt_upper_bound; lia]).
    destruct (digit_char_spec (n mod 10)) as [-> ->];
      [pose proof (Z.mod_pos_bound n 10); lia|].
    do 2 f_equal.
    rewrite Nat2Z.inj_succ, Z.pow_succ_r by lia.
    pose proof (Z.div_mod n 10). lia.
Qed.

Lemma read_digits_zero_pad (w : nat) (n : Z) (rest : string) :
  0 <= n < 10 ^ Z.of_nat w ->
  read_digits w 0 (zero_pad w n +:+ rest) = Some (n, rest).
Proof. intros Hn. by rewrite read_digits_zero_pad_acc. Qed.

Lemma zero_pad_cons (w : nat) (n : Z) (rest : string) :
  exists c s, zero_pad (S w) n +:+ rest = String c s.
Proof.
  revert n rest. induction w as [|w IH]; intros n rest.
  - change (zero_pad 1 n) with (String (digit_char (n mod 10)) EmptyString).
    string_app. by eexists _, _.
  - change (zero_pad (S (S w)) n)
      with (zero_pad (S w) (n / 10) +:+ String (digit_char (n mod 10)) EmptyString).
    rewrite string_app_assoc. apply IH.
Qed.

Lemma valid_datetime_ranges (t : datetime) :
  valid_datetime t = true ->
  1 <= year t <= 9999 /\ 1 <= month t <= 12 /\ 1 <= day t <= 31 /\
  0 <= hour t <= 23 /\ 0 <= minute t <= 59 /\ 0 <= second t <= 59 /\
  0 <= microsecond t <= 999999.
Proof.
  unfold valid_datetime. intros Hv.
  repeat (apply andb_prop in Hv as [Hv ?]).
  assert (days_in_month (year t) (month t) <= 31).
  { unfold days_in_month.
    repeat match goal with |- context [if ?c then _ else _] => destruct c end; lia. }
  lia.
Qed.

#[local] Opaque zero_pad read_digits.

Lemma parse_date_zero_pad (y m d : Z) (rest : string) :
  0 <= y < 10000 -> 0 <= m < 100 -> 0 <= d < 100 ->
  parse_date (zero_pad 4 y +:+ "-" +:+ zero_pad 2 m +:+ "-" +:+ zero_pad 2 d +:+ rest)
  = Some (y, m, d, rest).
Proof.
  intros Hy Hm Hd. unfold parse_date.
  rewrite read_digits_zero_pad by (simpl; lia). string_app. simpl.
  rewrite read_digits_zero_pad by (simpl; lia). string_app. simpl.
  rewrite read_digits_zero_pad by (simpl; lia). done.
Qed.

Lemma parse_time_zero_pad (hh mm ss us : Z) :
  0 <= hh < 100 -> 0 <= mm < 100 -> 0 <= ss < 100 -> 0 <= us < 1000000 ->
  parse_time (zero_pad 2 hh +:+ ":" +:+ zero_pad 2 mm +:+ ":" +:+ zero_pad 2 ss +:+
              (if us =? 0 then EmptyString else "." +:+ zero_pad 6 us))
  = Some (hh, mm, ss, us).
Proof.
  intros Hh Hm Hs Hus. unfold parse_time.
  rewrite read_digits_zero_pad by (simpl; lia). string_app. simpl.
  rewrite read_digits_zero_pad by (simpl; lia). string_app. simpl.
  rewrite read_digits_zero_pad by (simpl; lia).
  destruct (Z.eqb_spec us 0) as [->|Hne]; [done|]. string_app. simpl.
  unfold parse_fraction.
  rewrite <- (string_app_nil_r (zero_pad 6 us)).
  rewrite read_digits_zero_pad by (simpl; lia). done.
Qed.

(** What [str] writes for a valid timestamp, [fromisoformat] reads back
    in full. *)
Lemma fromisoformat_str_datetime (t : datetime) :
  valid_datetime t = true -> fromisoformat (str_datetime t) = Ok t.
Proof.
  intros Hv. pose proof (valid_datetime_ranges t Hv) as (Hy & Hm & Hd & Hh & Hmi & Hs & Hus).
  unfold fromisoformat, str_datetime.
  rewrite parse_date_zero_pad by lia.
  match goal with
  | |- context [" " +:+ ?x] => change (" " +:+ x) with (String " " x)
  end.
  match goal with
  | |- context [zero_pad 2 (hour t) +:+ ?rest] =>
      destruct (zero_pad_cons 1 (hour t) rest) as (c & s & Hcs)
  end.
  rewrite Hcs. lazy beta iota. rewrite <- Hcs.
  rewrite parse_time_zero_pad by lia.
  unfold checked. destruct t. simpl in *. by rewrite Hv.
Qed.

#[local] Transparent zero_pad read_digits.

(** ** Loading the usage *)

Lemma load_usage_spec (items : options) (us : list (Units * Z)) (w : World) :
  NoDup (keys items) ->
  exists us' out,
    load_usage items us w = (Ok us', mk_World (files w) (clock w) (ticks w) out) /\
    (forall u, assoc_get u us' =
       match loadable items u with Some n => Some n | None => assoc_get u us end) /\
    (NoDup (keys us) -> NoDup (keys us')).
Proof.
  revert us w. induction items as [|[key v] rest IH]; intros us w Hnd.
  - exists us, (stdout w). destruct w. done.
  - change (keys ((key, v) :: rest)) with (key :: keys rest) in Hnd.
    apply NoDup_cons in Hnd as [Hkey Hnd].
    assert (Hother : forall u, key <> unit_key u ->
              loadable ((key, v) :: rest) u = loadable rest u).
    { intros u Hne. unfold loadable. simpl. by rewrite decide_False. }
    assert (Hnone : forall u, parse_unit key = None -> key <> unit_key u).
    { intros u Hp ->. by rewrite parse_unit_unit_key in Hp. }
    cbn [load_usage].
    destruct (parse_unit key) as [unit|] eqn:Hparse.
    + apply parse_unit_Some in Hparse as ->.
      assert (Hrest : loadable rest unit = None).
      { unfold loadable. apply assoc_get_None_keys in Hkey. by rewrite Hkey. }
      destruct (isdigit v) eqn:Hdigit.
      * destruct (int_str_isdigit v Hdigit) as (n & Hn & _).
        unfold ebind, elift. rewrite Hn.
        destruct (IH (assoc_set unit n us) w Hnd) as (us' & out & -> & Hget & Hnd').
        exists us', out. split; [done|]. split.
        -- intros u. rewrite Hget. destruct (decide (u = unit)) as [->|Hne].
           ++ rewrite Hrest, assoc_get_set_eq.
              unfold loadable. simpl. rewrite decide_True by done.
              by rewrite Hdigit, Hn.
           ++ rewrite Hother by (intros Heq; by apply unit_key_inj in Heq).
              by rewrite assoc_get_set_ne.
        -- intros Hus. by apply Hnd', NoDup_keys_assoc_set.
      * assert (Hload : forall u, loadable ((unit_key unit, v) :: rest) u
                                  = loadable rest u).
        { intros u. destruct (decide (u = unit)) as [->|Hne].
          - rewrite Hrest. unfold loadable. simpl.
            rewrite decide_True by done. by rewrite Hdigit.
          - apply Hother. intros Heq. by apply unit_key_inj in Heq. }
        destruct (String.eqb (unit_key unit) "latest_time").
        -- destruct (IH us w Hnd) as (us' & out & -> & Hget & Hnd').
           exists us', out. split; [done|]. split; [|done].
           intros u. by rewrite Hload.
        -- unfold ebind, print.
           destruct (IH us (mk_World (files w) (clock w) (ticks w)
                              (stdout w ++ ["value of " +:+ unit_key unit +:+
                                            " must be a positive integer"])%list) Hnd)
             as (us' & out & -> & Hget & Hnd').
           exists us', out. split; [done|]. split; [|done].
           intros u. by rewrite Hload.
    + destruct (String.eqb key "latest_time").
      * destruct (IH us w Hnd) as (us' & out & -> & Hget & Hnd').
        exists us', out. split; [done|]. split; [|done].
        intros u. by rewrite Hother by (by apply Hnone).
      * unfold ebind, print.
        destruct (IH us (mk_World (files w) (clock w) (ticks w)
                           (stdout w ++ ["paramater " +:+ key +:+ " not valid"])%list) Hnd)
          as (us' & out & -> & Hget & Hnd').
        exists us', out. split; [done|]. split; [|done].
        intros u. by rewrite Hother by (by apply Hnone).
Qed.

Lemma loadable_nonneg (opts : options) (u : Units) (n : Z) :
  loadable opts u = Some n -> 0 <= n.
Proof.
  unfold loadable. destruct (assoc_get (unit_key u) opts) as [v|]; [|done].
  destruct (isdigit v) eqn:Hd; [|done].
  destruct (int_str_isdigit v Hd) as (m & -> & Hm). by intros [= <-].
Qed.

Lemma init_usage_loop_spec (params : list string) (us us' : list (Units * Z)) :
  init_usage_loop params us = Ok us' ->
  (NoDup (keys us) -> NoDup (keys us')) /\
  (forall u n, assoc_get u us' = Some n -> n = 0 \/ assoc_get u us = Some n).
Proof.
  revert us. induction params as [|param rest IH]; intros us; simpl.
  - intros [= <-]. split; [done|]. intros u n Hn. by right.
  - destruct (parse_unit param) as [unit|]; [|discriminate].
    intros Hrun. apply IH in Hrun as [Hnd Hget]. split.
    + intros Hus. by apply Hnd, NoDup_keys_assoc_set.
    + intros u n Hn. apply Hget in Hn as [->|Hn]; [by left|].
      rewrite assoc_get_set in Hn. destruct (decide (unit = u)); [left|right]; congruence.
Qed.

(** ** Persist and reload *)

Lemma NoDup_keys_persisted_fold (items : list (Units * Z)) (o : options) :
  NoDup (keys o) ->
  NoDup (keys (fold_left
                 (fun o kv => assoc_set (unit_key (fst kv)) (str_int (snd kv)) o)
                 items o)).
Proof.
  revert o. induction items as [|[u n] items IH]; intros o Hnd; simpl; [done|].
  by apply IH, NoDup_keys_assoc_set.
Qed.

(** After a flush, the USAGE section loads exactly the tracked counts. *)
Lemma loadable_persisted_options (self : RateLimiter) (opts : options) (u : Units) :
  NoDup (keys (usage self)) ->
  (forall u n, assoc_get u (usage self) = Some n -> 0 <= n) ->
  (forall u n, loadable opts u = Some n -> tracked self u) ->
  loadable (persisted_options self opts) u = assoc_get u (usage self).
Proof.
  intros Hnd Hnonneg Htracked.
  destruct (assoc_get u (usage self)) as [n|] eqn:Hget.
  - unfold loadable. rewrite (persisted_options_unit self opts u n Hnd Hget).
    pose proof (Hnonneg u n Hget).
    by rewrite isdigit_str_int, int_str_str_int.
  - assert (Hsame : assoc_get (unit_key u) (persisted_options self opts)
                    = assoc_get (unit_key u) opts).
    { apply persisted_options_untracked; [apply unit_key_not_latest_time|].
      intros u' Hu' Heq. apply unit_key_inj in Heq as <-.
      by apply assoc_get_None_keys in Hget. }
    destruct (loadable opts u) as [n|] eqn:Hload.
    + apply Htracked in Hload. by apply assoc_get_None_keys in Hget.
    + unfold loadable in *. by rewrite Hsame.
Qed.

(** Flushing a persistable limiter and constructing a limiter from the
    file gives the same counts and the same last-operation time. *)
Lemma reload_after_flush (self : RateLimiter) (w : World) :
  persistable self ->
  valid_datetime (latest_time self) = true ->
  exists flushed w1 reloaded w2,
    write_usage (self, w) = (Ok tt, (flushed, w1)) /\
    init (Some (cfg_file self)) w1 = (Ok reloaded, w2) /\
    (forall u, assoc_get u (usage reloaded) = assoc_get u (usage self)) /\
    latest_time reloaded = latest_time self.
Proof.
  intros (Hlimits & (opts & Hopts & Hndo & Htracked) & Hnd & Hnonneg) Hv.
  set (c' := assoc_set "USAGE" (persisted_options self opts) (config self)).
  assert (Hsections : sections c' = sections (config self)).
  { apply keys_assoc_set_mem. eapply assoc_get_Some_keys, Hopts. }
  assert (Hndp : NoDup (keys (persisted_options self opts))).
  { apply NoDup_keys_persisted_fold. by apply NoDup_keys_assoc_set. }
  destruct (load_usage_spec (persisted_options self opts) []
              (written (cfg_file self) c' w) Hndp)
    as (us' & out & Hload & Hget & _).
  eexists _, _, (mk_RateLimiter (cfg_file self) c' us' (latest_time self)), _.
  split; [apply (write_usage_ok self w opts Hopts)|].
  split; [|split].
  - unfold init, ebind, config_read. simpl.
    rewrite lookup_insert_eq. simpl. fold c'.
    assert (Husage : "USAGE" ∈ sections (config self))
      by (eapply assoc_get_Some_keys, Hopts).
    rewrite <- Hsections in Hlimits, Husage.
    rewrite (bool_decide_eq_true_2 _ Hlimits). simpl.
    rewrite (bool_decide_eq_true_2 _ Husage).
    unfold elift, config_getitem. subst c'. rewrite assoc_get_set_eq. simpl.
    rewrite persisted_options_latest_time.
    rewrite (fromisoformat_str_datetime _ Hv).
    rewrite Hload. reflexivity.
  - intros u. simpl. rewrite Hget.
    rewrite (loadable_persisted_options self opts u Hnd Hnonneg Htracked).
    by destruct (assoc_get u (usage self)).
  - reflexivity.
Qed.

(** Construction from a file that has a LIMITS section gives a
    persistable limiter. *)
Lemma init_persistable (path : string) (c : Config) (w : World)
    (self : RateLimiter) (w' : World) :
  files w !! path = Some c ->
  "LIMITS" ∈ sections c ->
  (forall opts, assoc_get "USAGE" c = Some opts -> NoDup (keys opts)) ->
  init (Some path) w = (Ok self, w') ->
  persistable self /\ cfg_file self = path.
Proof.
  intros Hfile Hlimits Hunique.
  unfold init, ebind, config_read. rewrite Hfile. simpl.
  rewrite (bool_decide_eq_true_2 _ Hlimits). simpl.
  destruct (decide ("USAGE" ∈ sections c)) as [Husage|Husage].
  - rewrite (bool_decide_eq_true_2 _ Husage).
    destruct (assoc_get_is_Some_keys _ _ Husage) as [opts Hopts].
    unfold elift, config_getitem. rewrite Hopts. simpl.
    pose proof (Hunique opts Hopts) as Hndo.
    assert (Htail : forall latest w1,
              (let (r, s') := load_usage opts [] w1 in
               match r with
               | Ok us => eret (mk_RateLimiter path c us latest) s'
               | Raise e => (Raise e, s')
               end) = (Ok self, w') ->
              persistable self /\ cfg_file self = path).
    { intros latest w1.
      destruct (load_usage_spec opts [] w1 Hndo) as (us' & out & -> & Hget & Hnd').
      intros [= <- <-]. split; [|done].
      split; [done|]. split; [|split].
      - exists opts. split; [done|]. split; [done|].
        intros u n Hload. unfold tracked. simpl.
        eapply assoc_get_Some_keys. rewrite Hget, Hload. done.
      - simpl. apply Hnd', NoDup_nil_2.
      - simpl. intros u n. rewrite Hget.
        destruct (loadable opts u) as [m|] eqn:Hload; [|done].
        intros [= <-]. by apply loadable_nonneg in Hload. }
    destruct (assoc_get "latest_time" opts) as [lt|].
    + destruct (fromisoformat lt) as [latest|e]; [|discriminate]. apply Htail.
    + unfold datetime_now. apply Htail.
  - rewrite (bool_decide_eq_false_2 _ Husage).
    unfold datetime_now, init_usage, ebind, get_self, elift, modify_self. simpl.
    unfold config_getitem, config_setitem. simpl.
    rewrite assoc_get_set_ne by done.
    destruct (assoc_get_is_Some_keys _ _ Hlimits) as [limits ->]. simpl.
    destruct (init_usage_loop (keys limits) []) as [us|e] eqn:Hloop; [|discriminate].
    simpl. intros [= <- <-]. split; [|done].
    apply init_usage_loop_spec in Hloop as [Hnd Hzero].
    split; [|split; [|split]].
    + simpl. apply elem_of_keys_assoc_set. by right.
    + exists []. simpl. rewrite assoc_get_set_eq.
      split; [done|]. split; [apply NoDup_nil_2 | done].
    + simpl. apply Hnd, NoDup_nil_2.
    + simpl. intros u n Hn. apply Hzero in Hn as [->|Hn]; [lia | done].
Qed.

(** A successful request keeps a limiter persistable. *)
Lemma request_persistable {A} (func : Eff World A) (self : RateLimiter)
    (w : World) out self' w' :
  persistable self ->
  request func (self, w) = (Ok out, (self', w')) ->
  persistable self' /\ cfg_file self' = cfg_file self.
Proof.
  intros (Hlimits & (opts & Hopts & Hndo & Htracked) & Hnd & Hnonneg) Hreq.
  apply request_Ok in Hreq as (w1 & self1 & w2 & _ & Hloop & -> & _).
  pose proof (request_loop_frame _ _ _ _ _ _ Hloop) as (Hcfg & Hpath & _ & Hkeys & _).
  pose proof (request_loop_counts _ _ _ _ _ Hnd Hloop) as Hcounts.
  split; [|done]. unfold persistable, tracked. simpl.
  rewrite Hcfg, Hkeys. split; [done|]. split; [by exists opts|]. split; [done|].
  intros u n' Hn'.
  destruct (assoc_get_is_Some_keys u (usage self)) as [n Hn].
  { rewrite <- Hkeys. eapply assoc_get_Some_keys, Hn'. }
  destruct (Hcounts u n Hn) as (c' & Hc' & Hcase).
  assert (c' = n') as -> by congruence.
  pose proof (Hnonneg u n Hn).
  destruct Hcase as [[_ Hcase]|[_ Hcase]]; lia.
Qed.

Lemma requests_persistable {A} (funcs : list (Eff World A)) (self : RateLimiter)
    (w : World) self' w' :
  persistable self ->
  requests funcs (self, w) = (Ok tt, (self', w')) ->
  persistable self' /\ cfg_file self' = cfg_file self.
Proof.
  revert self w. induction funcs as [|func rest IH]; intros self w Hp; simpl.
  - by intros [= <- <-].
  - unfold ebind.
    destruct (request func (self, w)) as [[out|e] [self1 w1]] eqn:Hreq; [|discriminate].
    intros Hrest.
    apply (request_persistable func self w out self1 w1 Hp) in Hreq as [Hp1 Hpath1].
    apply (IH self1 w1 Hp1) in Hrest as [Hp' Hpath']. split; [done | congruence].
Qed.

(** C8, as stated, fails. The file has a USAGE section and no LIMITS
    section.  A limiter is built from it, one request succeeds at
    00:00:01, the usage is flushed; the limiter built next from the same
    file has the clock's reading at its construction, 00:00:02, as its
    last-operation time. *)
Lemma reload_without_limits_loses_latest_time :
  ~ round_trips (A := unit) "limits.ini"
      (ticking [("limits.ini", usage_only_file)]) [eret tt].
Proof.
  intros Hrt.
  destruct (Hrt (mk_RateLimiter "limits.ini" [("USAGE", [])] []
                   (mk_datetime 2024 1 1 0 0 0 0))
              (tick (ticking [("limits.ini", usage_only_file)]))
              (mk_RateLimiter "limits.ini" [("USAGE", [])] []
                   (mk_datetime 2024 1 1 0 0 1 0))
              (tick (tick (ticking [("limits.ini", usage_only_file)]))))
    as (flushed & w3 & reloaded & w4 & Hflush & Hinit & _ & Hlatest);
    [reflexivity | reflexivity | reflexivity |].
  injection Hflush as <- <-.
  injection Hinit as <- _.
  discriminate Hlatest.
Qed.

(** C8, amended. The file has a LIMITS section (and its USAGE options,
    if any, are distinct, as the parser requires). Constructing a
    limiter from it, making any number of successful requests, flushing,
    and constructing a limiter from the same file again gives the same
    count for every unit and the same last-operation time, in full. *)
Theorem persist_reload_round_trip {A : Type} (path : string) (c : Config)
    (w : World) (funcs : list (Eff World A)) :
  files w !! path = Some c ->
  "LIMITS" ∈ sections c ->
  (forall opts, assoc_get "USAGE" c = Some opts -> NoDup (keys opts)) ->
  round_trips path w funcs.
Proof.
  intros Hfile Hlimits Hunique self w1 self' w2 Hinit Hreqs Hv.
  destruct (init_persistable path c w self w1 Hfile Hlimits Hunique Hinit)
    as [Hp Hpath].
  destruct (requests_persistable funcs self w1 self' w2 Hp Hreqs) as [Hp' Hpath'].
  destruct (reload_after_flush self' w2 Hp' Hv)
    as (flushed & w3 & reloaded & w4 & Hflush & Hreload & Hcounts & Hlatest).
  exists flushed, w3, reloaded, w4.
  rewrite Hpath', Hpath in Hreload. done.
Qed.

Lemma persist_reload_round_trip_witness :
  round_trips (A := unit) "limits.ini" two_per_minute_world [eret tt; eret tt].
Proof.
  apply (persist_reload_round_trip "limits.ini" two_per_minute_file).
  - reflexivity.
  - apply list_elem_of_here.
  - intros opts. discriminate.
Defined.

(** ** Which units are tracked and which are limited *)

(** Below every maximum, [cooldown] finds nothing and returns zero. *)
Lemma cooldown_loop_below (self : RateLimiter) (limits : list string) :
  (forall key u, key ∈ limits -> parse_unit key = Some u ->
     exists n text limit,
       assoc_get u (usage self) = Some n /\
       option_getitem (config self) "LIMITS" key = Ok text /\
       int_str text = Ok limit /\ n < limit) ->
  cooldown_loop self limits = Ok 0.
Proof.
  induction limits as [|k rest IH]; intros Hbelow; simpl; [done|].
  assert (Hrest : cooldown_loop self rest = Ok 0).
  { apply IH. intros key u Hin. apply Hbelow. by apply list_elem_of_further. }
  destruct (parse_unit k) as [u|] eqn:Hk; [|done].
  destruct (Hbelow k u (list_elem_of_here _ _) Hk)
    as (n & text & limit & Hn & -> & Hlimit & Hlt).
  unfold usage_getitem. rewrite Hn. simpl. rewrite Hlimit. simpl.
  by destruct (Z.leb_spec limit n); [lia|].
Qed.

Lemma cooldown_all_below_zero (self : RateLimiter) :
  "LIMITS" ∈ sections (config self) ->
  all_below self -> cooldown self = Ok 0.
Proof.
  intros Hsec Hbelow.
  destruct (assoc_get_is_Some_keys _ _ Hsec) as [opts Hopts].
  unfold cooldown, config_getitem. rewrite Hopts. simpl.
  apply cooldown_loop_below. intros key u Hin Hparse.
  unfold all_below, limits_of in Hbelow. rewrite Hopts in Hbelow. simpl in Hbelow.
  destruct (Hbelow key u Hin Hparse) as (n & text & limit & Hn & Htext & Hlimit & Hlt).
  exists n, text, limit. repeat split; try done.
  unfold option_getitem, config_getitem. rewrite Hopts. simpl.
  rewrite (parse_unit_Some _ _ Hparse), optionxform_unit_key.
  rewrite (parse_unit_Some _ _ Hparse) in Htext. by rewrite Htext.
Qed.

Lemma init_usage_loop_keys (params : list string) (us us' : list (Units * Z)) :
  init_usage_loop params us = Ok us' ->
  forall u, u ∈ keys us' <->
            u ∈ keys us \/ exists param, param ∈ params /\ parse_unit param = Some u.
Proof.
  revert us. induction params as [|param rest IH]; intros us; simpl.
  - intros [= <-] u. split; [by left|].
    intros [?|(param & Hin & _)]; [done | by apply elem_of_nil in Hin].
  - destruct (parse_unit param) as [unit|] eqn:Hp; [|discriminate].
    intros Hrun u. rewrite (IH _ Hrun u), elem_of_keys_assoc_set. split.
    + intros [[->|Hin]|(p & Hin & Hpu)].
      * right. exists param. split; [apply list_elem_of_here | done].
      * by left.
      * right. exists p. split; [by apply list_elem_of_further | done].
    + intros [Hin|(p & Hin & Hpu)].
      * left. by right.
      * apply elem_of_cons in Hin as [->|Hin].
        -- left. left. congruence.
        -- right. by exists p.
Qed.

(** Without a USAGE section in the file, construction tracks exactly the
    limited units. *)
Lemma init_tracks_limited_units (path : string) (c : Config) (w : World)
    (self : RateLimiter) (w' : World) :
  files w !! path = Some c ->
  "LIMITS" ∈ sections c ->
  "USAGE" ∉ sections c ->
  init (Some path) w = (Ok self, w') ->
  forall u, tracked self u <-> limited self u.
Proof.
  intros Hfile Hlimits Husage.
  unfold init, ebind, config_read. rewrite Hfile. simpl.
  rewrite (bool_decide_eq_true_2 _ Hlimits). simpl.
  rewrite (bool_decide_eq_false_2 _ Husage).
  unfold datetime_now, init_usage, ebind, get_self, elift, modify_self. simpl.
  unfold config_getitem, config_setitem. simpl.
  rewrite assoc_get_set_ne by done.
  destruct (assoc_get_is_Some_keys _ _ Hlimits) as [limits Hl]. rewrite Hl. simpl.
  destruct (init_usage_loop (keys limits) []) as [us|e] eqn:Hloop; [|discriminate].
  simpl. intros [= <- <-] u.
  unfold tracked, limited, limits_of. simpl.
  rewrite assoc_get_set_ne by done. rewrite Hl. simpl.
  rewrite (init_usage_loop_keys _ _ _ Hloop u). split.
  - intros [Hin|Hex]; [by apply elem_of_nil in Hin | done].
  - intros Hex. by right.
Qed.

(** A fresh limiter tracks nothing and limits nothing. *)
Lemma init_fresh (w : World) :
  exists self,
    init None w = (Ok self, tick w) /\ usage self = [] /\ limits_of self = [].
Proof. eexists. split; [reflexivity|]. done. Qed.

Lemma limits_of_set_usage_section (self : RateLimiter) (opts : options) :
  limits_of (set_config (assoc_set "USAGE" opts (config self)) self)
  = limits_of self.
Proof. unfold limits_of. simpl. by rewrite assoc_get_set_ne. Qed.

(** A flush, whether it succeeds or not, leaves the counters, the
    last-operation time and the limits as they are. *)
Lemma write_usage_frame (self : RateLimiter) (w : World) r self' w' :
  write_usage (self, w) = (r, (self', w')) ->
  usage self' = usage self /\ latest_time self' = latest_time self /\
  limits_of self' = limits_of self.
Proof.
  destruct (assoc_get "USAGE" (config self)) as [opts|] eqn:Hopts.
  - rewrite (write_usage_ok self w opts Hopts). intros [= <- <- <-].
    repeat split. apply limits_of_set_usage_section.
  - unfold write_usage, ebind, get_self, elift, option_setitem, config_getitem.
    simpl. rewrite Hopts. simpl. by intros [= <- <- <-].
Qed.

(** No request, successful or failed, changes which units are tracked or
    which are limited. *)
Lemma request_keeps_units {A} (func : Eff World A) (self : RateLimiter)
    (w : World) r self' w' :
  request func (self, w) = (r, (self', w')) ->
  keys (usage self') = keys (usage self) /\ limits_of self' = limits_of self.
Proof.
  unfold request, etry, ebind, in_world, get_self. simpl.
  assert (Hhandler : forall e self1 w1,
            keys (usage self1) = keys (usage self) ->
            limits_of self1 = limits_of self ->
            (let (r0, s) := write_usage (self1, w1) in
             match r0 with
             | Ok _ => eraise (A := A) e s
             | Raise e0 => (Raise e0, s)
             end) = (r, (self', w')) ->
            keys (usage self') = keys (usage self) /\
            limits_of self' = limits_of self).
  { intros e self1 w1 Hk Hl.
    destruct (write_usage (self1, w1)) as [r0 [self2 w2]] eqn:Hwrite.
    apply write_usage_frame in Hwrite as (Hu & _ & Hl2).
    destruct r0; intros [= <- <- <-]; split; congruence. }
  destruct (func w) as [[o|e] w1]; simpl.
  - destruct (request_loop (keys (usage self)) (self, w1)) as [r1 [self1 w2]] eqn:Hloop.
    apply request_loop_frame in Hloop as (Hcfg & _ & _ & Hkeys & _).
    assert (Hl : limits_of self1 = limits_of self)
      by (unfold limits_of; by rewrite Hcfg).
    destruct r1 as [[]|e]; simpl.
    + intros [= <- <- <-]. done.
    + by apply Hhandler.
  - by apply Hhandler.
Qed.

(** ** Every reachable limiter is well formed *)

Lemma load_usage_well_formed (items : options) (us : list (Units * Z))
    (w : World) r w' :
  load_usage items us w = (r, w') ->
  NoDup (keys us) ->
  (forall u n, assoc_get u us = Some n -> 0 <= n) ->
  match r with
  | Ok us' => NoDup (keys us') /\ (forall u n, assoc_get u us' = Some n -> 0 <= n)
  | Raise _ => True
  end.
Proof.
  revert us w. induction items as [|[key v] rest IH]; intros us w.
  - intros [= <- <-]. done.
  - cbn [load_usage].
    destruct (parse_unit key) as [unit|].
    + destruct (isdigit v) eqn:Hdigit.
      * destruct (int_str_isdigit v Hdigit) as (n & Hn & Hpos).
        unfold ebind, elift. rewrite Hn. intros Hrun Hnd Hnonneg.
        apply (IH _ _ Hrun); [by apply NoDup_keys_assoc_set|].
        intros u m. rewrite assoc_get_set.
        destruct (decide (unit = u)); [by intros [= <-] | apply Hnonneg].
      * destruct (String.eqb key "latest_time"); [apply IH|].
        unfold ebind, print. apply IH.
    + destruct (String.eqb key "latest_time"); [apply IH|].
      unfold ebind, print. apply IH.
Qed.

Lemma init_well_formed (cfg : option string) (w : World) self w' :
  init cfg w = (Ok self, w') -> well_formed self.
Proof.
  destruct cfg as [path|]; simpl.
  - unfold ebind, config_read. simpl.
    set (c := if negb _ then _ else _).
    destruct (decide ("USAGE" ∈ sections c)) as [Husage|Husage].
    + rewrite (bool_decide_eq_true_2 _ Husage).
      unfold elift. destruct (config_getitem c "USAGE") as [opts|e]; [|discriminate].
      assert (Htail : forall latest w1,
                (let (r, s') := load_usage opts [] w1 in
                 match r with
                 | Ok us => eret (mk_RateLimiter path c us latest) s'
                 | Raise e => (Raise e, s')
                 end) = (Ok self, w') ->
                well_formed self).
      { intros latest w1.
        destruct (load_usage opts [] w1) as [[us|e] w2] eqn:Hload; [|discriminate].
        intros [= <- <-].
        apply load_usage_well_formed in Hload as [Hnd Hnonneg];
          [|apply NoDup_nil_2|done].
        done. }
      destruct (assoc_get "latest_time" opts) as [lt|].
      * destruct (fromisoformat lt) as [latest|e]; [|discriminate]. apply Htail.
      * unfold datetime_now. apply Htail.
    + rewrite (bool_decide_eq_false_2 _ Husage).
      unfold datetime_now, init_usage, ebind, get_self, elift, modify_self. simpl.
      destruct (config_getitem _ "LIMITS") as [limits|e]; [|discriminate]. simpl.
      destruct (init_usage_loop (keys limits) []) as [us|e] eqn:Hloop; [|discriminate].
      simpl. intros [= <- <-].
      apply init_usage_loop_spec in Hloop as [Hnd Hzero].
      split; [|split].
      * simpl. apply sections_config_setitem. by left.
      * simpl. apply Hnd, NoDup_nil_2.
      * simpl. intros u n Hn. apply Hzero in Hn as [->|Hn]; [lia | done].
  - unfold ebind, datetime_now, eret. intros [= <- <-]. split; [|split].
    + simpl. apply list_elem_of_further, list_elem_of_here.
    + apply NoDup_nil_2.
    + done.
Qed.

Lemma request_loop_nonneg units (self : RateLimiter) (w : World) r self' w' :
  request_loop units (self, w) = (r, (self', w')) ->
  (forall u n, assoc_get u (usage self) = Some n -> 0 <= n) ->
  forall u n, assoc_get u (usage self') = Some n -> 0 <= n.
Proof.
  revert self w. induction units as [|h rest IH]; intros self w.
  - by intros [= <- <- <-].
  - rewrite request_loop_cons.
    destruct (fst (is_after h (self, w))) as [after|e];
      [|by intros [= <- <- <-]].
    set (self1 := if after then _ else self). simpl.
    intros Hrun Hnonneg.
    assert (H1 : forall u n, assoc_get u (usage self1) = Some n -> 0 <= n).
    { intros u n Hn. subst self1. destruct after; [|by eapply Hnonneg].
      cbn [set_usage usage] in Hn.
      destruct (assoc_get u (usage self)) as [c|] eqn:Hc.
      - destruct (reset_usage_loop_get (rev all_Units) h _ u c Hc) as [H|H];
          rewrite H in Hn; injection Hn as <-; [by eapply Hnonneg | lia].
      - apply assoc_get_Some_keys in Hn. rewrite reset_usage_loop_keys in Hn.
        by apply assoc_get_None_keys in Hc. }
    destruct (assoc_get h (usage self1)) as [m|] eqn:Hm.
    + apply (IH _ _ Hrun). simpl. intros u n. rewrite assoc_get_set.
      destruct (decide (h = u)); [|apply H1].
      intros [= <-]. specialize (H1 h m Hm). lia.
    + injection Hrun as <- <- <-. done.
Qed.

Lemma write_usage_sections (self : RateLimiter) (w : World) r self' w' :
  write_usage (self, w) = (r, (self', w')) ->
  sections (config self') = sections (config self).
Proof.
  destruct (assoc_get "USAGE" (config self)) as [opts|] eqn:Hopts.
  - rewrite (write_usage_ok self w opts Hopts). intros [= <- <- <-]. simpl.
    apply keys_assoc_set_mem. eapply assoc_get_Some_keys, Hopts.
  - unfold write_usage, ebind, get_self, elift, option_setitem, config_getitem.
    simpl. rewrite Hopts. simpl. by intros [= <- <- <-].
Qed.

Lemma request_well_formed {A} (func : Eff World A) (self : RateLimiter)
    (w : World) r self' w' :
  well_formed self ->
  request func (self, w) = (r, (self', w')) ->
  well_formed self'.
Proof.
  intros (Husage & Hnd & Hnonneg) Hreq.
  pose proof (request_keeps_units _ _ _ _ _ _ Hreq) as [Hkeys _].
  split; [|split; [by rewrite Hkeys|]]; revert Hreq;
    unfold request, etry, ebind, in_world, get_self; simpl.
  - assert (Hhandler : forall e self1 w1,
              sections (config self1) = sections (config self) ->
              (let (r0, s) := write_usage (self1, w1) in
               match r0 with
               | Ok _ => eraise (A := A) e s
               | Raise e0 => (Raise e0, s)
               end) = (r, (self', w')) ->
              "USAGE" ∈ sections (config self')).
    { intros e self1 w1 Hs.
      destruct (write_usage (self1, w1)) as [r0 [self2 w2]] eqn:Hwrite.
      apply write_usage_sections in Hwrite.
      destruct r0; intros [= <- <- <-]; congruence. }
    destruct (func w) as [[o|e] w1]; simpl; [|by apply Hhandler].
    destruct (request_loop (keys (usage self)) (self, w1)) as [r1 [self1 w2]] eqn:Hloop.
    apply request_loop_frame in Hloop as (Hcfg & _).
    destruct r1 as [[]|e]; simpl.
    + intros [= <- <- <-]. simpl. by rewrite Hcfg.
    + apply Hhandler. by rewrite Hcfg.
  - assert (Hhandler : forall e self1 w1,
              (forall u n, assoc_get u (usage self1) = Some n -> 0 <= n) ->
              (let (r0, s) := write_usage (self1, w1) in
               match r0 with
               | Ok _ => eraise (A := A) e s
               | Raise e0 => (Raise e0, s)
               end) = (r, (self', w')) ->
              forall u n, assoc_get u (usage self') = Some n -> 0 <= n).
    { intros e self1 w1 H1.
      destruct (write_usage (self1, w1)) as [r0 [self2 w2]] eqn:Hwrite.
      apply write_usage_frame in Hwrite as (Hu & _).
      destruct r0; intros [= <- <- <-]; by rewrite Hu. }
    destruct (func w) as [[o|e] w1]; simpl; [|by apply Hhandler].
    destruct (request_loop (keys (usage self)) (self, w1)) as [r1 [self1 w2]] eqn:Hloop.
    pose proof (request_loop_nonneg _ _ _ _ _ _ Hloop Hnonneg) as H1.
    destruct r1 as [[]|e]; simpl.
    + intros [= <- <- <-]. done.
    + by apply Hhandler.
Qed.

(** The hypotheses that the theorems on [request] make about the limiter
    hold in every state a caller can reach. *)
Lemma reachable_well_formed (s : RateLimiter * World) :
  reachable s -> well_formed (fst s).
Proof.
  induction 1 as [cfg w self w' Hinit | kwargs s r s' _ IH Hupd
                 | func s r s' _ IH Hreq].
  - by eapply init_well_formed.
  - pose proof (update_limits_config kwargs s) as Hcfg.
    rewrite Hupd in Hcfg. simpl in Hcfg. by rewrite Hcfg.
  - destruct s as [self w], s' as [self' w'].
    by eapply request_well_formed.
Qed.

(** ** Worked examples *)

(** The example of the specification: two requests per minute. Before
    the first and the second request the cooldown is zero; before a third
    it is sixty seconds. *)
Example two_per_minute_cooldowns :
  let s0 := (two_per_minute, two_per_minute_world) in
  let s1 := snd (request (eret tt) s0) in
  let s2 := snd (request (eret tt) s1) in
  cooldown (fst s0) = Ok 0 /\
  cooldown (fst s1) = Ok 0 /\
  cooldown (fst s2) = Ok (60 * us_per_second).
Proof. repeat split; reflexivity. Qed.

(** Persist and reload on that file: construct, two requests, flush,
    construct again. *)
Example two_per_minute_round_trip :
  let s0 := (two_per_minute, tick two_per_minute_world) in
  let s1 := snd (requests [eret tt; eret tt] s0) in
  let s2 := snd (write_usage s1) in
  fst (init (Some "limits.ini") two_per_minute_world) = Ok two_per_minute /\
  fst (requests [eret tt; eret tt] s0) = Ok tt /\
  fst (write_usage s1) = Ok tt /\
  usage (fst s1) = [(MINUTE, 2)] /\
  exists reloaded,
    fst (init (Some "limits.ini") (snd s2)) = Ok reloaded /\
    usage reloaded = [(MINUTE, 2)] /\
    latest_time reloaded = latest_time (fst s1).
Proof.
  repeat split; try reflexivity.
  eexists. split; [vm_compute; reflexivity|]. split; reflexivity.
Qed.

(** ** Rollover when the usage map runs from coarse to fine *)

(** [__reset_usage(h)], for a tracked [h], zeroes the tracked units it
    visits up to [h] and leaves the others. *)
Lemma reset_usage_loop_upto units h (us : list (Units * Z)) :
  h ∈ keys us ->
  forall u,
    assoc_get u (reset_usage_loop units h us)
    = if bool_decide (u ∈ upto h units)
      then match assoc_get u us with Some _ => Some 0 | None => None end
      else assoc_get u us.
Proof.
  revert us. induction units as [|u0 rest IH]; intros us Hh u; simpl.
  - done.
  - destruct (assoc_mem u0 us) eqn:Hmem; simpl.
    + apply assoc_mem_keys in Hmem.
      destruct (assoc_get_is_Some_keys _ _ Hmem) as [c0 Hc0].
      destruct (decide (u0 = h)) as [->|Hne].
      * rewrite assoc_get_set. destruct (decide (h = u)) as [<-|Hu].
        -- rewrite bool_decide_eq_true_2 by apply list_elem_of_here. by rewrite Hc0.
        -- rewrite bool_decide_eq_false_2; [done|].
           intros Hin. apply list_elem_of_singleton in Hin. done.
      * rewrite IH by (apply elem_of_keys_assoc_set; by right).
        rewrite assoc_get_set. destruct (decide (u0 = u)) as [<-|Hu].
        -- rewrite (bool_decide_eq_true_2 (u0 ∈ u0 :: _)) by apply list_elem_of_here.
           rewrite Hc0. by destruct (bool_decide _).
        -- assert (Hiff : u ∈ u0 :: upto h rest <-> u ∈ upto h rest).
           { rewrite elem_of_cons. split; [intros [?|?]; done | by right]. }
           by rewrite (bool_decide_ext _ _ Hiff).
    + assert (Hnone : assoc_get u0 us = None).
      { unfold assoc_mem in Hmem. by destruct (assoc_get u0 us). }
      assert (Hne : u0 <> h).
      { intros ->. by apply assoc_get_None_keys in Hnone. }
      rewrite decide_False by done. rewrite IH by done.
      destruct (decide (u0 = u)) as [<-|Hu].
      * rewrite (bool_decide_eq_true_2 (u0 ∈ u0 :: _)) by apply list_elem_of_here.
        rewrite Hnone. by destruct (bool_decide _).
      * assert (Hiff : u ∈ u0 :: upto h rest <-> u ∈ upto h rest).
        { rewrite elem_of_cons. split; [intros [?|?]; done | by right]. }
        by rewrite (bool_decide_ext _ _ Hiff).
Qed.

Lemma upto_reversed_Units (h u : Units) :
  u ∈ upto h (rev all_Units) <-> (value h <= value u)%nat.
Proof.
  destruct h, u; cbn; split; intros H; try lia;
    repeat (first [ apply list_elem_of_here | apply list_elem_of_further ]);
    repeat (apply elem_of_cons in H as [H|H]; [discriminate|]);
    by apply elem_of_nil in H.
Qed.

(** The reset that [request] makes for a tracked unit: every tracked
    unit at least as fine goes to zero, the coarser ones stay. *)
Lemma reset_usage_spec (h : Units) (us : list (Units * Z)) (u : Units) :
  h ∈ keys us ->
  assoc_get u (reset_usage_loop (rev all_Units) h us)
  = if bool_decide (value h <= value u)%nat
    then match assoc_get u us with Some _ => Some 0 | None => None end
    else assoc_get u us.
Proof.
  intros Hh. rewrite reset_usage_loop_upto by done.
  by rewrite (bool_decide_ext _ _ (upto_reversed_Units h u)).
Qed.

Lemma coarse_to_fine_cons (h : Units) (rest : list Units) :
  coarse_to_fine (h :: rest) ->
  coarse_to_fine rest /\ forall h', h' ∈ rest -> (value h < value h')%nat.
Proof.
  intros Hs. apply StronglySorted_inv in Hs as [Hrest Hall]. split; [done|].
  intros h' Hin. rewrite Forall_forall in Hall. by apply Hall.
Qed.

(** Once the counters of the pending units stand at zero, the rest of
    the loop puts each of them to one. *)
Lemma request_loop_after_reset units (self : RateLimiter) (w : World) self' w' :
  coarse_to_fine units ->
  (forall h, h ∈ units -> assoc_get h (usage self) = Some 0) ->
  (forall u h, u ∈ keys (usage self) -> h ∈ units ->
     (value h <= value u)%nat -> u ∈ units) ->
  request_loop units (self, w) = (Ok tt, (self', w')) ->
  forall u, assoc_get u (usage self')
            = if bool_decide (u ∈ units) then Some 1 else assoc_get u (usage self).
Proof.
  revert self w. induction units as [|h rest IH]; intros self w Hsorted Hzero Hclosed.
  - intros [= <- <-] u. by rewrite bool_decide_eq_false_2 by apply not_elem_of_nil.
  - apply coarse_to_fine_cons in Hsorted as [Hrest Hlt].
    rewrite request_loop_cons.
    destruct (fst (is_after h (self, w))) as [after|e]; [|discriminate].
    set (self1 := if after then _ else self). simpl.
    assert (Hh : h ∈ keys (usage self)).
    { eapply assoc_get_Some_keys, Hzero, list_elem_of_here. }
    assert (Hsame : forall u, assoc_get u (usage self1) = assoc_get u (usage self)).
    { intros u. subst self1. destruct after; [|done].
      cbn [set_usage usage]. rewrite reset_usage_spec by done.
      destruct (bool_decide_reflect (value h <= value u)%nat) as [Hle|]; [|done].
      destruct (assoc_get u (usage self)) as [c|] eqn:Hc; [|done].
      rewrite <- Hc. symmetry. apply Hzero.
      eapply Hclosed; [eapply assoc_get_Some_keys, Hc | apply list_elem_of_here | done]. }
    assert (Hkeys : keys (usage self1) = keys (usage self)).
    { subst self1. destruct after; [|done].
      cbn [set_usage usage]. apply reset_usage_loop_keys. }
    rewrite Hsame, (Hzero h (list_elem_of_here _ _)).
    intros Hrun u.
    pose proof (fun H1 H2 => IH _ _ Hrest H1 H2 Hrun u) as Hfin.
    rewrite Hfin; clear Hfin.
    + simpl. rewrite assoc_get_set, Hsame.
      destruct (decide (h = u)) as [<-|Hne].
      * rewrite (bool_decide_eq_true_2 (h ∈ h :: rest)) by apply list_elem_of_here.
        by destruct (bool_decide _).
      * assert (Hiff : u ∈ h :: rest <-> u ∈ rest).
        { rewrite elem_of_cons. split; [intros [?|?]; done | by right]. }
        by rewrite (bool_decide_ext _ _ Hiff).
    + intros h' Hin. simpl. rewrite assoc_get_set_ne, Hsame.
      * apply Hzero. by apply list_elem_of_further.
      * intros ->. specialize (Hlt h' Hin). lia.
    + intros u0 h' Hu0 Hin Hle. simpl in Hu0.
      rewrite keys_assoc_set_mem, Hkeys in Hu0 by (by rewrite Hkeys).
      assert (Hin0 : u0 ∈ h :: rest)
        by (eapply Hclosed; [done | by apply list_elem_of_further | done]).
      apply elem_of_cons in Hin0 as [->|Hin0]; [|done].
      specialize (Hlt h' Hin). lia.
Qed.

(** The loop of [request] with a steady clock, when the check holds for
    [unit] and for no pending coarser unit. *)
Lemma request_loop_rollover units (self : RateLimiter) (w : World) self' w'
    (now : datetime) (unit : Units) :
  coarse_to_fine units ->
  (forall n, clock w n = now) ->
  unit ∈ units ->
  (forall h, h ∈ units -> h ∈ keys (usage self)) ->
  (forall u h, u ∈ keys (usage self) -> h ∈ units ->
     (value h <= value u)%nat -> u ∈ units) ->
  crossed unit (latest_time self) now ->
  (forall h, h ∈ units -> (value h < value unit)%nat ->
     ~ crossed h (latest_time self) now) ->
  request_loop units (self, w) = (Ok tt, (self', w')) ->
  forall u c, assoc_get u (usage self) = Some c ->
    assoc_get u (usage self')
    = Some (if bool_decide (value unit <= value u)%nat then 1
            else if bool_decide (u ∈ units) then c + 1 else c).
Proof.
  revert self w. induction units as [|h rest IH];
    intros self w Hsorted Hclock Hunit Htracked Hclosed Hcross Hnot.
  - by apply elem_of_nil in Hunit.
  - apply coarse_to_fine_cons in Hsorted as [Hrest Hlt].
    rewrite request_loop_cons.
    destruct (decide (h = YEAR)) as [->|Hyear].
    { rewrite is_after_year_raises. discriminate. }
    rewrite is_after_crossedb by done. cbn [fst]. rewrite Hclock.
    assert (Hh : h ∈ keys (usage self)) by apply Htracked, list_elem_of_here.
    destruct (decide (h = unit)) as [->|Hne].
    + (* the turn of the unit whose boundary was crossed *)
      rewrite (proj2 (crossedb_spec _ _ _) Hcross).
      cbn [set_usage usage]. rewrite reset_usage_spec by done.
      rewrite bool_decide_eq_true_2 by lia.
      destruct (assoc_get_is_Some_keys _ _ Hh) as [c0 ->].
      intros Hrun u c Hc.
      pose proof (fun H1 H2 =>
                    request_loop_after_reset _ _ _ _ _ Hrest H1 H2 Hrun u) as Hfin.
      rewrite Hfin; clear Hfin.
      * cbn [set_usage usage]. rewrite assoc_get_set, reset_usage_spec by done.
        destruct (decide (unit = u)) as [<-|Hu].
        -- rewrite (bool_decide_eq_true_2 (value unit <= value unit)%nat) by lia.
           by destruct (bool_decide _).
        -- destruct (bool_decide_reflect (value unit <= value u)%nat) as [Hle|Hgt].
           ++ rewrite Hc.
              assert (Hin : u ∈ unit :: rest).
              { eapply Hclosed; [eapply assoc_get_Some_keys, Hc
                                | apply list_elem_of_here | done]. }
              apply elem_of_cons in Hin as [->|Hin]; [done|].
              by rewrite bool_decide_eq_true_2.
           ++ assert (Hnotin : u ∉ rest).
              { intros Hin. specialize (Hlt u Hin). lia. }
              rewrite (bool_decide_eq_false_2 (u ∈ rest)) by done.
              rewrite Hc. f_equal.
              rewrite bool_decide_eq_false_2; [done|].
              intros Hin. apply elem_of_cons in Hin as [->|Hin]; done.
      * intros h' Hin. cbn [set_usage usage].
        rewrite assoc_get_set_ne by (intros ->; specialize (Hlt h' Hin); lia).
        rewrite reset_usage_spec by done.
        specialize (Hlt h' Hin).
        rewrite bool_decide_eq_true_2 by lia.
        assert (Hh' : h' ∈ keys (usage self))
          by (apply Htracked; by apply list_elem_of_further).
        by destruct (assoc_get_is_Some_keys _ _ Hh') as [c' ->].
      * intros u0 h' Hu0 Hin Hle. cbn [set_usage usage] in Hu0.
        assert (Hk : keys (reset_usage_loop (rev all_Units) unit (usage self))
                     = keys (usage self)) by apply reset_usage_loop_keys.
        rewrite keys_assoc_set_mem in Hu0 by (by rewrite Hk).
        rewrite Hk in Hu0.
        assert (Hin0 : u0 ∈ unit :: rest)
          by (eapply Hclosed; [done | by apply list_elem_of_further | done]).
        apply elem_of_cons in Hin0 as [->|Hin0]; [|done].
        specialize (Hlt h' Hin). lia.
    + (* a coarser unit, whose boundary was not crossed *)
      assert (Hunit' : unit ∈ rest).
      { apply elem_of_cons in Hunit as [->|?]; done. }
      pose proof (Hlt unit Hunit') as Hhu.
      assert (Hb : crossedb h (latest_time self) now = false).
      { destruct (crossedb h (latest_time self) now) eqn:Hb; [|done].
        apply crossedb_spec in Hb. exfalso.
        by apply (Hnot h (list_elem_of_here _ _) Hhu). }
      rewrite Hb.
      destruct (assoc_get_is_Some_keys _ _ Hh) as [n Hn]. rewrite Hn.
      intros Hrun u c Hc.
      assert (Hget : assoc_get u (assoc_set h (n + 1) (usage self))
                     = Some (if decide (h = u) then n + 1 else c)).
      { rewrite assoc_get_set. by destruct (decide (h = u)). }
      assert (Hclock' : forall k, clock (tick w) k = now) by (intros k; apply Hclock).
      pose proof (fun H1 H2 H3 =>
                    IH (set_usage (assoc_set h (n + 1) (usage self)) self) (tick w)
                      Hrest Hclock' Hunit' H1 H2 Hcross H3 Hrun u _ Hget) as Hfin.
      rewrite Hfin; clear Hfin.
      * f_equal.
        destruct (bool_decide_reflect (value unit <= value u)%nat) as [Hle|Hgt];
          [done|].
        destruct (decide (h = u)) as [<-|Hu].
        -- rewrite Hn in Hc. injection Hc as <-.
           rewrite (bool_decide_eq_true_2 (h ∈ h :: rest)) by apply list_elem_of_here.
           rewrite bool_decide_eq_false_2; [done|].
           intros Hin. specialize (Hlt h Hin). lia.
        -- assert (Hiff : u ∈ h :: rest <-> u ∈ rest).
           { rewrite elem_of_cons. split; [intros [?|?]; done | by right]. }
           by rewrite (bool_decide_ext _ _ Hiff).
      * intros h' Hin. simpl. rewrite keys_assoc_set_mem by done.
        apply Htracked. by apply list_elem_of_further.
      * intros u0 h' Hu0 Hin Hle. simpl in Hu0.
        rewrite keys_assoc_set_mem in Hu0 by done.
        assert (Hin0 : u0 ∈ h :: rest)
          by (eapply Hclosed; [done | by apply list_elem_of_further | done]).
        apply elem_of_cons in Hin0 as [->|Hin0]; [|done].
        specialize (Hlt h' Hin). lia.
      * intros h' Hin. apply Hnot. by apply list_elem_of_further.
Qed.

(** X18. Rollover when the usage map lists its units from the coarsest
    to the finest and the clock stands still while the counters are
    updated: if the boundary check holds
    for a tracked unit and for no coarser tracked unit, a successful
    request leaves that unit and every finer tracked unit at 1 and every
    coarser tracked unit at its old count plus one. *)
Lemma request_rollover_coarse_to_fine {A} (func : Eff World A)
    (self : RateLimiter) (w w1 : World) (out : A) self' w'
    (now : datetime) (unit : Units) :
  func w = (Ok out, w1) ->
  (forall n, clock w1 n = now) ->
  coarse_to_fine (keys (usage self)) ->
  tracked self unit ->
  crossed unit (latest_time self) now ->
  (forall h, tracked self h -> (value h < value unit)%nat ->
     ~ crossed h (latest_time self) now) ->
  request func (self, w) = (Ok out, (self', w')) ->
  forall u c, assoc_get u (usage self) = Some c ->
    assoc_get u (usage self')
    = Some (if bool_decide (value unit <= value u)%nat then 1 else c + 1).
Proof.
  intros Hfunc Hclock Hsorted Hunit Hcross Hnot Hreq u c Hc.
  apply request_Ok in Hreq as (w1' & self1 & w2 & Hfunc' & Hloop & -> & _).
  rewrite Hfunc in Hfunc'. injection Hfunc' as <-.
  cbn [set_latest_time usage].
  rewrite (request_loop_rollover (keys (usage self)) self w1 self1 w2 now unit
             Hsorted Hclock Hunit (fun h H => H) (fun u h Hu _ _ => Hu)
             Hcross Hnot Hloop u c Hc).
  by rewrite (bool_decide_eq_true_2 (u ∈ keys (usage self)))
    by (eapply assoc_get_Some_keys, Hc).
Qed.

(** With day listed before minute, the request of the next day leaves
    both counters at 1. *)
Example request_day_then_minute :
  let s := (day_then_minute, at_time a_day_later []) in
  fst (request (eret tt) s) = Ok tt /\
  usage (fst (snd (request (eret tt) s))) = [(DAY, 1); (MINUTE, 1)].
Proof. split; reflexivity. Qed.

(** ** The limiter in the states a caller can reach *)

Lemma reachable_two_per_minute :
  reachable (two_per_minute, tick two_per_minute_world).
Proof. apply (reach_init (Some "limits.ini") two_per_minute_world). reflexivity. Qed.



(** C6, amended. The limiter does not refuse a request.  What holds in
    every reachable state: if [cooldown] returns zero just before a
    request and the request succeeds, then after it no limited unit's
    count is above its maximum. *)
Theorem request_after_zero_cooldown_within_limits {A : Type}
    (func : Eff World A) (self : RateLimiter) (w : World)
    (out : A) (self' : RateLimiter) (w' : World) :
  reachable (self, w) ->
  valid_datetime (latest_time self) = true ->
  cooldown self = Ok 0 ->
  request func (self, w) = (Ok out, (self', w')) ->
  within_limits self'.
Proof.
  intros Hreach Hv Hzero Hreq.
  apply reachable_well_formed in Hreach as (_ & Hnd & Hnonneg).
  by eapply request_within_limits.
Qed.

Lemma request_after_zero_cooldown_within_limits_witness :
  within_limits
    (fst (snd (request (eret tt) (two_per_minute, tick two_per_minute_world)))).
Proof.
  apply (request_after_zero_cooldown_within_limits
           (eret tt) two_per_minute (tick two_per_minute_world) tt _
           (snd (snd (request (eret tt)
                        (two_per_minute, tick two_per_minute_world))))).
  - apply (reach_init (Some "limits.ini") two_per_minute_world). reflexivity.
  - reflexivity.
  - reflexivity.
  - reflexivity.
Defined.

(** * Further properties of the limiter *)

(** ** Unit names *)

(** X1. [parse_unit] returns a unit exactly on that unit's name in lower
    case, the form under which the parser stores it; the name of the
    enumeration member itself, in upper case, is not recognised. *)
Theorem parse_unit_canonical (key : string) (u : Units) :
  (parse_unit key = Some u <-> key = optionxform (name u)) /\
  parse_unit (name u) = None.
Proof.
  split; [split|].
  - apply parse_unit_Some.
  - intros ->. apply parse_unit_unit_key.
  - by destruct u.
Qed.

(** ** [update_limits] *)

Lemma update_limits_loop_outcome kwargs (self : RateLimiter) (w : World) :
  update_limits_loop kwargs (self, w)
  = if existsb passes_guard kwargs
    then (Raise (if bool_decide ("LIMITS" ∈ sections (config self))
                 then AttributeError "'str' object has no attribute 'name'"
                 else KeyError "LIMITS"),
          (self, w))
    else (Ok tt, (self, w)).
Proof.
  induction kwargs as [|[key v] rest IH]; [done|].
  cbn [update_limits_loop existsb]. unfold passes_guard at 1. cbn [fst snd].
  destruct (bool_decide (parse_unit key <> None) && is_class_int v); [|apply IH].
  cbn [orb]. unfold ebind, get_self, elift, config_getitem. cbn [fst snd].
  destruct (decide ("LIMITS" ∈ sections (config self))) as [Hin|Hnotin].
  - rewrite (bool_decide_eq_true_2 _ Hin).
    by destruct (assoc_get_is_Some_keys _ _ Hin) as [opts ->].
  - rewrite (bool_decide_eq_false_2 _ Hnotin).
    apply assoc_get_None_keys in Hnotin. unfold sections in Hnotin.
    by rewrite Hnotin.
Qed.


(** ** What a request leaves alone *)

Lemma write_usage_cfg_file (self : RateLimiter) (w : World) r self' w' :
  write_usage (self, w) = (r, (self', w')) -> cfg_file self' = cfg_file self.
Proof.
  destruct (assoc_get "USAGE" (config self)) as [opts|] eqn:Hopts.
  - rewrite (write_usage_ok self w opts Hopts). by intros [= <- <- <-].
  - unfold write_usage, ebind, get_self, elift, option_setitem, config_getitem.
    simpl. rewrite Hopts. simpl. by intros [= <- <- <-].
Qed.

(** The state in which [request] ends is the state after the accounting
    loop, with the new last-operation time or after a flush. *)
Lemma request_through_loop {A} (func : Eff World A) (self : RateLimiter)
    (w : World) r self' w' (P : RateLimiter -> Prop) :
  P self ->
  (forall units s1 w1 r1 self1 w2,
     P s1 -> request_loop units (s1, w1) = (r1, (self1, w2)) -> P self1) ->
  (forall s1 t, P s1 -> P (set_latest_time t s1)) ->
  (forall s1 w1 r1 s2 w2, P s1 -> write_usage (s1, w1) = (r1, (s2, w2)) -> P s2) ->
  request func (self, w) = (r, (self', w')) ->
  P self'.
Proof.
  intros Hself Hloop Htime Hflush.
  unfold request, etry, ebind, in_world, get_self. simpl.
  assert (Hhandler : forall e self1 w1,
            P self1 ->
            (let (r0, s) := write_usage (self1, w1) in
             match r0 with
             | Ok _ => eraise (A := A) e s
             | Raise e0 => (Raise e0, s)
             end) = (r, (self', w')) -> P self').
  { intros e self1 w1 H1.
    destruct (write_usage (self1, w1)) as [r0 [self2 w2]] eqn:Hwrite.
    apply (Hflush _ _ _ _ _ H1) in Hwrite.
    destruct r0; by intros [= <- <- <-]. }
  destruct (func w) as [[o|e] w1]; simpl; [|by apply Hhandler].
  destruct (request_loop (keys (usage self)) (self, w1)) as [r1 [self1 w2]] eqn:Hrun.
  apply (Hloop _ _ _ _ _ _ Hself) in Hrun.
  destruct r1 as [[]|e]; simpl.
  - intros [= <- <- <-]. by apply Htime.
  - by apply Hhandler.
Qed.

(** X14. Whether it succeeds or fails, [request] never adds or removes a
    tracked unit, never changes the limits, the sections of the
    configuration or the path of the file. *)
Theorem request_changes_counts_only {A : Type} (func : Eff World A)
    (self : RateLimiter) (w : World) (r : result A)
    (self' : RateLimiter) (w' : World) :
  request func (self, w) = (r, (self', w')) ->
  keys (usage self') = keys (usage self) /\
  limits_of self' = limits_of self /\
  sections (config self') = sections (config self) /\
  cfg_file self' = cfg_file self.
Proof.
  apply (request_through_loop func self w r self' w'
           (fun s => keys (usage s) = keys (usage self) /\
                     limits_of s = limits_of self /\
                     sections (config s) = sections (config self) /\
                     cfg_file s = cfg_file self)).
  - done.
  - intros units s1 w1 r1 self1 w2 (Hk & Hl & Hs & Hf) Hrun.
    apply request_loop_frame in Hrun as (Hcfg & Hpath & _ & Hkeys & _).
    assert (Hl1 : limits_of self1 = limits_of s1)
      by (unfold limits_of; by rewrite Hcfg).
    rewrite Hcfg. repeat split; congruence.
  - intros s1 t H1. exact H1.
  - intros s1 w1 r1 s2 w2 (Hk & Hl & Hs & Hf) Hwrite.
    pose proof (write_usage_frame _ _ _ _ _ Hwrite) as (Hu & _ & Hl2).
    pose proof (write_usage_sections _ _ _ _ _ Hwrite) as Hs2.
    pose proof (write_usage_cfg_file _ _ _ _ _ Hwrite) as Hf2.
    repeat split; congruence.
Qed.

Lemma request_changes_counts_only_witness :
  let s := (minute_then_day, at_time a_day_later []) in
  keys (usage (fst (snd (request (eret tt) s)))) = [MINUTE; DAY] /\
  limits_of (fst (snd (request (eret tt) s))) = [("minute", "8"); ("day", "800")] /\
  sections (config (fst (snd (request (eret tt) s)))) = ["LIMITS"; "USAGE"] /\
  cfg_file (fst (snd (request (eret tt) s))) = "limits.ini".
Proof.
  apply (request_changes_counts_only (eret tt) minute_then_day
           (at_time a_day_later []) (Ok tt) _
           (snd (snd (request (eret tt) (minute_then_day, at_time a_day_later []))))).
  reflexivity.
Defined.

(** ** A limiter constructed without a file *)

Lemma fresh_reachable_invariant (s : RateLimiter * World) :
  fresh_reachable s ->
  usage (fst s) = [] /\ assoc_get "LIMITS" (config (fst s)) = Some [].
Proof.
  induction 1 as [w self w' Hinit | kwargs s r s' _ IH Hupd
                 | func s r s' _ IH Hreq | s r s' _ IH Hwrite].
  - unfold init, ebind, datetime_now, eret in Hinit. by injection Hinit as <- <-.
  - pose proof (update_limits_config kwargs s) as Hcfg.
    rewrite Hupd in Hcfg. simpl in Hcfg. by rewrite Hcfg.
  - destruct s as [self w], s' as [self' w']. simpl in *.
    destruct IH as [Hu Hl].
    revert Hreq.
    apply (request_through_loop func self w r self' w'
             (fun s => usage s = [] /\ assoc_get "LIMITS" (config s) = Some [])).
    + done.
    + intros units s1 w1 r1 self1 w2 [Hu1 Hl1] Hrun.
      apply request_loop_frame in Hrun as (Hcfg & _ & _ & Hkeys & _).
      rewrite Hcfg. split; [|done].
      rewrite Hu1 in Hkeys. by destruct (usage self1).
    + intros s1 t H1. exact H1.
    + intros s1 w1 r1 s2 w2 [Hu1 Hl1] Hwrite.
      pose proof (write_usage_frame _ _ _ _ _ Hwrite) as (Hu2 & _ & Hl2).
      split; [congruence|].
      destruct (assoc_get "USAGE" (config s1)) as [opts|] eqn:Hopts.
      * rewrite (write_usage_ok s1 w1 opts Hopts) in Hwrite.
        injection Hwrite as _ <- _. simpl. by rewrite assoc_get_set_ne.
      * unfold write_usage, ebind, get_self, elift, option_setitem, config_getitem
          in Hwrite. simpl in Hwrite. rewrite Hopts in Hwrite. simpl in Hwrite.
        by injection Hwrite as _ <- _.
  - destruct s as [self w], s' as [self' w']. simpl in *.
    destruct IH as [Hu Hl].
    pose proof (write_usage_frame _ _ _ _ _ Hwrite) as (Hu2 & _ & _).
    split; [congruence|].
    destruct (assoc_get "USAGE" (config self)) as [opts|] eqn:Hopts.
    + rewrite (write_usage_ok self w opts Hopts) in Hwrite.
      injection Hwrite as _ <- _. simpl. by rewrite assoc_get_set_ne.
    + unfold write_usage, ebind, get_self, elift, option_setitem, config_getitem
        in Hwrite. simpl in Hwrite. rewrite Hopts in Hwrite. simpl in Hwrite.
      by injection Hwrite as _ <- _.
Qed.

(** X3. A limiter constructed without a configuration file can never be
    given a limit: after any sequence of [update_limits], [request] and
    [write_usage] calls it tracks no unit, its LIMITS section is empty,
    and [cooldown] returns zero. *)
Theorem fresh_limiter_never_limits (s : RateLimiter * World) :
  fresh_reachable s ->
  usage (fst s) = [] /\ limits_of (fst s) = [] /\ cooldown (fst s) = Ok 0.
Proof.
  intros Hs. apply fresh_reachable_invariant in Hs as [Hu Hl].
  split; [done|]. split.
  - unfold limits_of. by rewrite Hl.
  - unfold cooldown, config_getitem. by rewrite Hl.
Qed.

Lemma fresh_reachable_request (func : Eff World unit) (s : RateLimiter * World) :
  fresh_reachable s -> fresh_reachable (snd (request func s)).
Proof.
  intros Hs. apply (fresh_request func s (fst (request func s))); [done|].
  by destruct (request func s).
Qed.

Lemma fresh_reachable_update_limits kwargs (s : RateLimiter * World) :
  fresh_reachable s -> fresh_reachable (snd (update_limits kwargs s)).
Proof.
  intros Hs. apply (fresh_update_limits kwargs s (fst (update_limits kwargs s)));
    [done|].
  by destruct (update_limits kwargs s).
Qed.

Lemma fresh_limiter_never_limits_witness :
  let s := snd (request (eret tt)
                  (snd (update_limits [("minute", PyInt 2)]
                          (mk_RateLimiter "limits.ini"
                             [("LIMITS", []); ("USAGE", [])] [] noon,
                           tick (at_time noon []))))) in
  usage (fst s) = [] /\ limits_of (fst s) = [] /\ cooldown (fst s) = Ok 0.
Proof.
  apply fresh_limiter_never_limits.
  apply fresh_reachable_request, fresh_reachable_update_limits.
  apply (fresh_init (at_time noon [])). reflexivity.
Defined.

(** ** Construction from a file *)



Lemma init_usage_loop_unknown (params : list string) (us : list (Units * Z))
    (bad : string) :
  List.find (fun k => bool_decide (parse_unit k = None)) params = Some bad ->
  init_usage_loop params us
  = Raise (Exception ("unknown time unit in LIMITS: " +:+ bad)).
Proof.
  revert us. induction params as [|param rest IH]; intros us; simpl; [done|].
  destruct (parse_unit param) as [unit|] eqn:Hp.
  - rewrite bool_decide_eq_false_2 by done. apply IH.
  - rewrite bool_decide_eq_true_2 by done. by intros [= <-].
Qed.

(** X5. A file without a USAGE section whose LIMITS section has an
    option that is not a unit name: construction raises [Exception] with
    the first such option in its message, after one reading of the
    clock. *)
Theorem init_unknown_limit_raises (path : string) (c : Config) (w : World)
    (limits : options) (bad : string) :
  files w !! path = Some c ->
  "USAGE" ∉ sections c ->
  assoc_get "LIMITS" c = Some limits ->
  List.find (fun k => bool_decide (parse_unit k = None)) (keys limits) = Some bad ->
  init (Some path) w
  = (Raise (Exception ("unknown time unit in LIMITS: " +:+ bad)), tick w).
Proof.
  intros Hfile Husage Hlimits Hbad.
  assert (Hin : "LIMITS" ∈ sections c) by (eapply assoc_get_Some_keys, Hlimits).
  unfold init, ebind, config_read. rewrite Hfile. simpl.
  rewrite (bool_decide_eq_true_2 _ Hin). simpl.
  rewrite (bool_decide_eq_false_2 _ Husage).
  unfold datetime_now, init_usage, ebind, get_self, elift, modify_self. simpl.
  unfold config_getitem, config_setitem. simpl.
  rewrite assoc_get_set_ne by done. rewrite Hlimits. simpl.
  by rewrite (init_usage_loop_unknown _ _ bad Hbad).
Qed.

Lemma init_unknown_limit_raises_witness :
  init (Some "limits.ini")
    (at_time noon [("limits.ini", [("LIMITS", [("day", "5"); ("week", "9")])])])
  = (Raise (Exception "unknown time unit in LIMITS: week"),
     tick (at_time noon
             [("limits.ini", [("LIMITS", [("day", "5"); ("week", "9")])])])).
Proof.
  apply (init_unknown_limit_raises "limits.ini"
           [("LIMITS", [("day", "5"); ("week", "9")])] _
           [("day", "5"); ("week", "9")] "week").
  - reflexivity.
  - intros Hin. apply list_elem_of_singleton in Hin. discriminate.
  - reflexivity.
  - reflexivity.
Defined.

(** The loop over the USAGE items never fails, and it only prints. *)
Lemma load_usage_total (items : options) (us : list (Units * Z)) (w : World) :
  exists us' out,
    load_usage items us w = (Ok us', mk_World (files w) (clock w) (ticks w) out).
Proof.
  revert us w. induction items as [|[key v] rest IH]; intros us w.
  - exists us, (stdout w). by destruct w.
  - cbn [load_usage].
    destruct (parse_unit key) as [unit|].
    + destruct (isdigit v) eqn:Hdigit.
      * destruct (int_str_isdigit v Hdigit) as (n & Hn & _).
        unfold ebind, elift. rewrite Hn. apply IH.
      * destruct (String.eqb key "latest_time"); [apply IH|].
        unfold ebind, print.
        destruct (IH us (mk_World (files w) (clock w) (ticks w)
                           (stdout w ++ ["value of " +:+ key +:+
                                         " must be a positive integer"])%list))
          as (us' & out & ->).
        by exists us', out.
    + destruct (String.eqb key "latest_time"); [apply IH|].
      unfold ebind, print.
      destruct (IH us (mk_World (files w) (clock w) (ticks w)
                         (stdout w ++ ["paramater " +:+ key +:+ " not valid"])%list))
        as (us' & out & ->).
      by exists us', out.
Qed.





(** X8. A file with a LIMITS section and no USAGE section, all of whose
    LIMITS options are unit names: the limiter constructed tracks
    exactly the limited units, each with count zero, has an empty USAGE
    section, and takes the clock's reading as its last-operation time. *)
Theorem init_starts_limited_units_at_zero (path : string) (c : Config)
    (w : World) (self : RateLimiter) (w' : World) :
  files w !! path = Some c ->
  "LIMITS" ∈ sections c ->
  "USAGE" ∉ sections c ->
  init (Some path) w = (Ok self, w') ->
  (forall u, limited self u -> assoc_get u (usage self) = Some 0) /\
  (forall u, ~ limited self u -> assoc_get u (usage self) = None) /\
  assoc_get "USAGE" (config self) = Some [] /\
  latest_time self = clock w (ticks w).
Proof.
  intros Hfile Hlimits Husage Hinit.
  pose proof (init_tracks_limited_units path c w self w' Hfile Hlimits Husage Hinit)
    as Hiff.
  revert Hinit.
  unfold init, ebind, config_read. rewrite Hfile. simpl.
  rewrite (bool_decide_eq_true_2 _ Hlimits). simpl.
  rewrite (bool_decide_eq_false_2 _ Husage).
  unfold datetime_now, init_usage, ebind, get_self, elift, modify_self. simpl.
  unfold config_getitem, config_setitem. simpl.
  rewrite assoc_get_set_ne by done.
  destruct (assoc_get_is_Some_keys _ _ Hlimits) as [limits Hl]. rewrite Hl. simpl.
  destruct (init_usage_loop (keys limits) []) as [us|e] eqn:Hloop; [|discriminate].
  simpl. intros [= Hself Hw]. subst self. simpl in *.
  apply init_usage_loop_spec in Hloop as [_ Hzero].
  split; [|split; [|split]].
  - intros u Hu. apply Hiff in Hu. unfold tracked in Hu. simpl in Hu.
    destruct (assoc_get_is_Some_keys _ _ Hu) as [n Hn].
    destruct (Hzero u n Hn) as [->|Hn0]; [done | discriminate].
  - intros u Hu. apply assoc_get_None_keys. intros Hin. by apply Hu, Hiff.
  - apply assoc_get_set_eq.
  - done.
Qed.

Lemma init_starts_limited_units_at_zero_witness :
  (forall u, limited two_per_minute u -> assoc_get u (usage two_per_minute) = Some 0) /\
  (forall u, ~ limited two_per_minute u -> assoc_get u (usage two_per_minute) = None) /\
  assoc_get "USAGE" (config two_per_minute) = Some [] /\
  latest_time two_per_minute = noon.
Proof.
  apply (init_starts_limited_units_at_zero "limits.ini" two_per_minute_file
           two_per_minute_world two_per_minute (tick two_per_minute_world)).
  - reflexivity.
  - apply list_elem_of_here.
  - intros Hin. apply list_elem_of_singleton in Hin. discriminate.
  - reflexivity.
Defined.

(** ** Flushing *)

Lemma operated_well_formed (s : RateLimiter * World) :
  operated s -> well_formed (fst s).
Proof.
  induction 1 as [cfg w self w' Hinit | kwargs s r s' _ IH Hupd
                 | func s r s' _ IH Hreq | s r s' _ IH Hwrite].
  - by apply (init_well_formed cfg w self w').
  - pose proof (update_limits_config kwargs s) as Hcfg.
    rewrite Hupd in Hcfg. simpl in Hcfg. unfold well_formed. by rewrite Hcfg.
  - destruct s as [self w], s' as [self' w'].
    by apply (request_well_formed func self w r self' w').
  - destruct s as [self w], s' as [self' w']. simpl in *.
    destruct IH as (Husage & Hnd & Hnonneg).
    pose proof (write_usage_frame _ _ _ _ _ Hwrite) as (Hu & _ & _).
    pose proof (write_usage_sections _ _ _ _ _ Hwrite) as Hs.
    unfold well_formed. rewrite Hs, Hu. done.
Qed.

Lemma assoc_set_id {K V} `{EqDecision K} (k : K) (v : V) (d : list (K * V)) :
  assoc_get k d = Some v -> assoc_set k v d = d.
Proof.
  induction d as [|[k' v'] d IH]; simpl; [done|].
  destruct (decide (k = k')) as [->|Hne].
  - by intros [= ->].
  - intros Hget. f_equal. by apply IH.
Qed.

Lemma assoc_get_elem_of {K V} `{EqDecision K} (k : K) (v : V) (d : list (K * V)) :
  NoDup (keys d) -> (k, v) ∈ d -> assoc_get k d = Some v.
Proof.
  induction d as [|[k' v'] d IH]; simpl.
  - intros _ Hin. by apply elem_of_nil in Hin.
  - intros Hnd Hin. apply NoDup_cons in Hnd as [Hnotin Hnd].
    apply elem_of_cons in Hin as [[= <- <-]|Hin].
    + by rewrite decide_True.
    + destruct (decide (k = k')) as [->|Hne]; [|by apply IH].
      exfalso. apply Hnotin.
      change k' with (fst (k', v)). by apply list_elem_of_fmap_2.
Qed.

Lemma persisted_fold_id (items : list (Units * Z)) (o : options) :
  (forall u n, (u, n) ∈ items -> assoc_get (unit_key u) o = Some (str_int n)) ->
  fold_left (fun o kv => assoc_set (unit_key (fst kv)) (str_int (snd kv)) o) items o
  = o.
Proof.
  induction items as [|[u n] items IH]; intros Hall; simpl; [done|].
  rewrite assoc_set_id by (apply Hall, list_elem_of_here).
  apply IH. intros u' n' Hin. apply Hall. by apply list_elem_of_further.
Qed.





(** ** Invariants of every limiter *)


Lemma operated_request (func : Eff World unit) (s : RateLimiter * World) :
  operated s -> operated (snd (request func s)).
Proof.
  intros Hs. apply (op_request func s (fst (request func s))); [done|].
  by destruct (request func s).
Qed.

Lemma operated_write_usage (s : RateLimiter * World) :
  operated s -> operated (snd (write_usage s)).
Proof.
  intros Hs. apply (op_write_usage s (fst (write_usage s))); [done|].
  by destruct (write_usage s).
Qed.


(** ** What a reset does *)

Lemma reset_usage_loop_untracked units h (us : list (Units * Z)) :
  h ∉ keys us ->
  forall u,
    assoc_get u (reset_usage_loop units h us)
    = if bool_decide (u ∈ units)
      then match assoc_get u us with Some _ => Some 0 | None => None end
      else assoc_get u us.
Proof.
  revert us. induction units as [|u0 rest IH]; intros us Hh u; simpl.
  - done.
  - assert (Hiff : u0 <> u -> (u ∈ u0 :: rest <-> u ∈ rest)).
    { intros Hu. rewrite elem_of_cons. split; [intros [?|?]; done | by right]. }
    destruct (assoc_mem u0 us) eqn:Hmem; simpl.
    + apply assoc_mem_keys in Hmem.
      destruct (assoc_get_is_Some_keys _ _ Hmem) as [c0 Hc0].
      assert (Hne : u0 <> h) by (intros ->; done).
      rewrite decide_False by done.
      rewrite IH by (rewrite keys_assoc_set_mem; done).
      rewrite assoc_get_set. destruct (decide (u0 = u)) as [<-|Hu].
      * rewrite (bool_decide_eq_true_2 (u0 ∈ u0 :: _)) by apply list_elem_of_here.
        rewrite Hc0. by destruct (bool_decide _).
      * by rewrite (bool_decide_ext _ _ (Hiff Hu)).
    + assert (Hnone : assoc_get u0 us = None).
      { unfold assoc_mem in Hmem. by destruct (assoc_get u0 us). }
      rewrite IH by done.
      destruct (decide (u0 = u)) as [<-|Hu].
      * rewrite (bool_decide_eq_true_2 (u0 ∈ u0 :: _)) by apply list_elem_of_here.
        rewrite Hnone. by destruct (bool_decide _).
      * by rewrite (bool_decide_ext _ _ (Hiff Hu)).
Qed.

Lemma elem_of_reversed_Units (u : Units) : u ∈ rev all_Units.
Proof. destruct u; vm_compute; repeat first [apply list_elem_of_here | apply list_elem_of_further]. Qed.

(** X15. [__reset_usage] of a tracked unit sets the count of that unit
    and of every finer tracked unit to zero and leaves the coarser ones;
    of a unit that is not tracked it sets every count to zero.  It
    never adds or removes a unit and touches nothing but the counts. *)
Theorem reset_usage_effect (unit : Units) (self : RateLimiter) (w : World) :
  exists self',
    reset_usage unit (self, w) = (Ok tt, (self', w)) /\
    config self' = config self /\ cfg_file self' = cfg_file self /\
    latest_time self' = latest_time self /\
    keys (usage self') = keys (usage self) /\
    forall u,
      assoc_get u (usage self')
      = if bool_decide (tracked self unit /\ (value u < value unit)%nat)
        then assoc_get u (usage self)
        else match assoc_get u (usage self) with
             | Some _ => Some 0
             | None => None
             end.
Proof.
  eexists. split; [reflexivity|]. cbn [set_usage config cfg_file latest_time usage].
  repeat split; [apply reset_usage_loop_keys|].
  intros u. destruct (decide (unit ∈ keys (usage self))) as [Hin|Hout].
  - rewrite reset_usage_spec by done.
    destruct (decide (value unit <= value u)%nat) as [Hle|Hgt].
    + rewrite bool_decide_eq_true_2 by done.
      rewrite bool_decide_eq_false_2; [done|]. unfold tracked. lia.
    + rewrite bool_decide_eq_false_2 by done.
      rewrite bool_decide_eq_true_2; [done|]. unfold tracked. split; [done|lia].
  - rewrite reset_usage_loop_untracked by done.
    rewrite bool_decide_eq_true_2 by apply elem_of_reversed_Units.
    rewrite bool_decide_eq_false_2; [done|]. unfold tracked. tauto.
Qed.

(** ** The time to wait *)

Lemma unit_length_le_day (u : Units) : unit_length u <= us_per_day.
Proof. destruct u; vm_compute; discriminate. Qed.

Lemma cooldown_loop_range (self : RateLimiter) (limits : list string) (r : Z) :
  valid_datetime (latest_time self) = true ->
  cooldown_loop self limits = Ok r ->
  0 <= r <= us_per_day.
Proof.
  intros Hvalid. apply valid_datetime_microsecond in Hvalid.
  induction limits as [|key rest IH]; simpl.
  - intros [= <-]. unfold us_per_day, us_per_second. lia.
  - destruct (parse_unit key) as [u|]; [|done].
    destruct (usage_getitem self u) as [used|]; [|done]. simpl.
    destruct (option_getitem _ _ _) as [text|]; [|done]. simpl.
    destruct (int_str text) as [limit|]; [|done]. simpl.
    destruct (limit <=? used); [|done].
    intros Hr. apply calculate_cooldown_value in Hr as [-> Hlen].
    pose proof (unit_length_le_day u). unfold us_per_second in *. lia.
Qed.

(** X16. When the last-operation time is a valid datetime and
    [cooldown] returns, the time to wait lies between zero and one day,
    and it is zero exactly when every limited unit is tracked with a
    count below its limit. *)
Theorem cooldown_range (self : RateLimiter) (r : Z) :
  valid_datetime (latest_time self) = true ->
  cooldown self = Ok r ->
  0 <= r <= us_per_day /\ (r = 0 <-> all_below self).
Proof.
  intros Hvalid Hr. split.
  - unfold cooldown in Hr.
    destruct (config_getitem _ _) as [limits|]; [|done]. simpl in Hr.
    by apply (cooldown_loop_range self (keys limits)).
  - split.
    + intros ->. by apply cooldown_zero_all_below.
    + intros Hbelow.
      assert (Hlimits : "LIMITS" ∈ sections (config self)).
      { unfold cooldown, config_getitem in Hr.
        destruct (assoc_get "LIMITS" (config self)) eqn:Hget; [|done].
        eapply assoc_get_Some_keys, Hget. }
      pose proof (cooldown_all_below_zero self Hlimits Hbelow) as H0.
      congruence.
Qed.

Lemma cooldown_range_witness :
  0 <= us_per_day <= us_per_day /\ (us_per_day = 0 <-> all_below day_spent).
Proof. apply (cooldown_range day_spent us_per_day); reflexivity. Defined.

Lemma days_before_year_nonneg (y : Z) : 1 <= y -> 0 <= days_before_year y.
Proof.
  intros Hy. unfold days_before_year. cbv zeta.
  Z.div_mod_to_equations. lia.
Qed.

Lemma days_before_month_nonneg (y m : Z) : 1 <= m <= 12 -> 0 <= days_before_month y m.
Proof.
  intros Hm. unfold days_before_month.
  assert (Hnth : 0 <= nth (Z.to_nat m) days_before_month_table 0).
  { assert (Hcases : m = 1 \/ m = 2 \/ m = 3 \/ m = 4 \/ m = 5 \/ m = 6 \/
                     m = 7 \/ m = 8 \/ m = 9 \/ m = 10 \/ m = 11 \/ m = 12) by lia.
    repeat destruct Hcases as [->|Hcases]; try subst m; vm_compute; discriminate. }
  destruct (_ && _); lia.
Qed.

Lemma valid_datetime_fields (t : datetime) :
  valid_datetime t = true ->
  1 <= year t /\ 1 <= month t <= 12 /\ 1 <= day t /\
  0 <= hour t <= 23 /\ 0 <= minute t <= 59 /\ 0 <= second t <= 59 /\
  0 <= microsecond t <= 999999.
Proof.
  unfold valid_datetime. rewrite !andb_true_iff, !Z.leb_le. lia.
Qed.

Lemma valid_datetime_whole_second y m d hh mm ss us :
  valid_datetime (mk_datetime y m d hh mm ss us) = true ->
  valid_datetime (mk_datetime y m d hh mm ss 0) = true.
Proof.
  unfold valid_datetime. cbn [year month day hour minute second microsecond].
  rewrite !andb_true_iff. intros H. repeat split; try apply H; done.
Qed.

Lemma toordinal_positive (t : datetime) : valid_datetime t = true -> 1 <= toordinal t.
Proof.
  intros Hvalid. apply valid_datetime_fields in Hvalid.
  unfold toordinal, ymd2ord.
  pose proof (days_before_year_nonneg (year t)).
  pose proof (days_before_month_nonneg (year t) (month t)). lia.
Qed.


(** ** Requests inside one window *)

Lemma crossedb_same (u : Units) (t : datetime) : crossedb u t t = false.
Proof. unfold crossedb. rewrite Z.eqb_refl. simpl. apply andb_false_r. Qed.

Lemma request_loop_steady units (self : RateLimiter) (w : World) (now : datetime) :
  (forall n, clock w n = now) ->
  NoDup units ->
  (forall h, h ∈ units ->
     h <> YEAR /\ h ∈ keys (usage self) /\
     crossedb h (latest_time self) now = false) ->
  exists self' w',
    request_loop units (self, w) = (Ok tt, (self', w')) /\
    forall u,
      assoc_get u (usage self')
      = if bool_decide (u ∈ units)
        then (fun n => n + 1) <$> assoc_get u (usage self)
        else assoc_get u (usage self).
Proof.
  revert self w. induction units as [|h rest IH]; intros self w Hclock Hnd Hall.
  - exists self, w. split; [done|]. intros u.
    rewrite bool_decide_eq_false_2; [done|]. apply not_elem_of_nil.
  - apply NoDup_cons in Hnd as [Hnotin Hnd].
    destruct (Hall h (list_elem_of_here _ _)) as (Hyear & Hin & Hcross).
    destruct (assoc_get_is_Some_keys _ _ Hin) as [n Hn].
    rewrite request_loop_cons, (is_after_crossedb h self w Hyear).
    cbn [fst]. rewrite Hclock, Hcross, Hn.
    destruct (IH (set_usage (assoc_set h (n + 1) (usage self)) self) (tick w))
      as (self' & w' & Hrun & Hcounts).
    + done.
    + done.
    + intros h' Hin'.
      destruct (Hall h' (list_elem_of_further _ _ _ Hin')) as (? & ? & ?).
      cbn [set_usage usage latest_time]. rewrite keys_assoc_set_mem by done. done.
    + exists self', w'. split; [done|]. intros u. rewrite Hcounts.
      cbn [set_usage usage]. rewrite assoc_get_set.
      destruct (decide (h = u)) as [<-|Hne].
      * rewrite (bool_decide_eq_false_2 (h ∈ rest)) by done.
        rewrite bool_decide_eq_true_2 by apply list_elem_of_here.
        by rewrite Hn.
      * assert (Hiff : u ∈ h :: rest <-> u ∈ rest).
        { rewrite elem_of_cons. split; [intros [?|?]; done | by right]. }
        by rewrite (bool_decide_ext _ _ Hiff).
Qed.

Lemma request_steady {A} (func : Eff World A) (self : RateLimiter) (w : World)
    (now : datetime) out w1 :
  func w = (Ok out, w1) ->
  (forall n, clock w1 n = now) ->
  NoDup (keys (usage self)) ->
  (forall u, tracked self u ->
     u <> YEAR /\ crossedb u (latest_time self) now = false) ->
  exists self' w',
    request func (self, w) = (Ok out, (self', w')) /\
    clock w' = clock w1 /\ latest_time self' = now /\
    keys (usage self') = keys (usage self) /\
    forall u, assoc_get u (usage self') = (fun n => n + 1) <$> assoc_get u (usage self).
Proof.
  intros Hfunc Hclock Hnd Hall.
  destruct (request_loop_steady (keys (usage self)) self w1 now Hclock Hnd)
    as (self1 & w2 & Hrun & Hcounts).
  { intros h Hin. destruct (Hall h Hin). done. }
  pose proof (request_loop_frame _ _ _ _ _ _ Hrun) as (_ & _ & _ & Hkeys & _ & Hclock2 & _).
  exists (set_latest_time (clock w2 (ticks w2)) self1), (tick w2).
  split; [|repeat split].
  - unfold request, etry, ebind, in_world, get_self. simpl.
    rewrite Hfunc. simpl. rewrite Hrun. done.
  - done.
  - simpl. by rewrite Hclock2.
  - done.
  - intros u. cbn [set_latest_time usage]. rewrite Hcounts.
    destruct (decide (u ∈ keys (usage self))) as [Hin|Hout].
    + by rewrite bool_decide_eq_true_2.
    + rewrite bool_decide_eq_false_2 by done.
      apply assoc_get_None_keys in Hout. by rewrite Hout.
Qed.

(** X11. Requests that all fall into one window are all counted: when
    the clock stands still, no year limit is tracked, no tracked unit's
    boundary lies between the last operation and now, and the wrapped
    calls return, every request succeeds, every tracked count grows by
    the number of requests, and no unit is added or removed. *)
Theorem requests_in_one_window {A : Type} (funcs : list (Eff World A))
    (self : RateLimiter) (w : World) (now : datetime) :
  Forall returns_in_no_time funcs ->
  (forall n, clock w n = now) ->
  NoDup (keys (usage self)) ->
  (forall u, tracked self u ->
     u <> YEAR /\ ~ crossed u (latest_time self) now) ->
  exists self' w',
    requests funcs (self, w) = (Ok tt, (self', w')) /\
    keys (usage self') = keys (usage self) /\
    (funcs <> [] -> latest_time self' = now) /\
    forall u n, assoc_get u (usage self) = Some n ->
      assoc_get u (usage self') = Some (n + Z.of_nat (length funcs)).
Proof.
  intros Hfuncs. revert self w.
  induction Hfuncs as [|func rest Hfunc _ IH]; intros self w Hclock Hnd Hall.
  - exists self, w. repeat split; [done|]. intros u n Hn. rewrite Hn. simpl.
    f_equal. lia.
  - destruct (Hfunc w) as (out & w1 & Hrun & Hclock1).
    destruct (request_steady func self w now out w1 Hrun)
      as (self1 & w2 & Hreq & Hclock2 & Hlatest & Hkeys & Hcounts).
    { intros n. by rewrite Hclock1. }
    { done. }
    { intros u Hu. destruct (Hall u Hu) as [Hyear Hcross]. split; [done|].
      destruct (crossedb u (latest_time self) now) eqn:Hb; [|done].
      by apply crossedb_spec in Hb. }
    destruct (IH self1 w2) as (self' & w' & Hrest & Hkeys' & Hl' & Hcounts').
    { intros n. by rewrite Hclock2, Hclock1. }
    { by rewrite Hkeys. }
    { intros u Hu. unfold tracked in Hu. rewrite Hkeys in Hu.
      destruct (Hall u Hu) as [Hyear _]. split; [done|].
      rewrite Hlatest. intros Hc. apply crossedb_spec in Hc.
      by rewrite crossedb_same in Hc. }
    exists self', w'. split; [|repeat split].
    + simpl. unfold ebind. by rewrite Hreq.
    + by rewrite Hkeys'.
    + intros _. destruct rest as [|func' rest'].
      * simpl in Hrest. unfold eret in Hrest. by injection Hrest as <- _.
      * by apply Hl'.
    + intros u n Hn. specialize (Hcounts u). rewrite Hn in Hcounts. simpl in Hcounts.
      rewrite (Hcounts' u (n + 1) Hcounts). f_equal. simpl length. lia.
Qed.

Lemma returns_in_no_time_eret {A} (x : A) : returns_in_no_time (eret (S := World) x).
Proof. intros w. by exists x, w. Qed.

Lemma requests_in_one_window_witness :
  exists self' w',
    requests [eret tt; eret tt] (two_per_minute, tick two_per_minute_world)
    = (Ok tt, (self', w')) /\
    keys (usage self') = [MINUTE] /\
    ([eret (S := World) tt; eret tt] <> [] -> latest_time self' = noon) /\
    forall u n, assoc_get u (usage two_per_minute) = Some n ->
      assoc_get u (usage self') = Some (n + Z.of_nat 2).
Proof.
  apply (requests_in_one_window [eret tt; eret tt] two_per_minute
           (tick two_per_minute_world) noon).
  - repeat constructor; apply returns_in_no_time_eret.
  - reflexivity.
  - apply NoDup_singleton.
  - intros u Hu. apply list_elem_of_singleton in Hu as ->.
    split; [discriminate|]. intros [_ Hne]. by apply Hne.
Defined.

(** ** A year limit *)

Lemma request_loop_year units (self : RateLimiter) (w : World) :
  YEAR ∈ units ->
  (forall h, h ∈ units -> h ∈ keys (usage self)) ->
  exists self' w',
    request_loop units (self, w) = (Raise (UnboundLocalError "i"), (self', w')).
Proof.
  revert self w. induction units as [|h rest IH]; intros self w Hyear Hall.
  - by apply elem_of_nil in Hyear.
  - rewrite request_loop_cons.
    destruct (decide (h = YEAR)) as [->|Hne].
    + rewrite is_after_year_raises. cbn [fst]. eauto.
    + rewrite (is_after_crossedb h self w Hne). cbn [fst].
      set (self1 := if crossedb _ _ _ then _ else self).
      assert (Hkeys : keys (usage self1) = keys (usage self)).
      { subst self1. destruct (crossedb _ _ _); [|done].
        apply reset_usage_loop_keys. }
      assert (Hin : h ∈ keys (usage self1)).
      { rewrite Hkeys. apply Hall, list_elem_of_here. }
      destruct (assoc_get_is_Some_keys _ _ Hin) as [n Hn]. rewrite Hn.
      apply IH.
      * apply elem_of_cons in Hyear as [Heq|Hyear]; [congruence|done].
      * intros h' Hin'. cbn [set_usage usage].
        rewrite keys_assoc_set_mem by done. rewrite Hkeys.
        by apply Hall, list_elem_of_further.
Qed.




Lemma request_rollover_coarse_to_fine_witness :
  assoc_get MINUTE
    (usage (fst (snd (request (eret tt) (day_then_minute, at_time a_day_later [])))))
  = Some (if bool_decide (value DAY <= value MINUTE)%nat then 1 else 3 + 1).
Proof.
  refine (request_rollover_coarse_to_fine (eret tt) day_then_minute
            (at_time a_day_later []) (at_time a_day_later []) tt _
            (snd (snd (request (eret tt) (day_then_minute, at_time a_day_later []))))
            a_day_later DAY _ _ _ _ _ _ _ MINUTE 3 _).
  - reflexivity.
  - reflexivity.
  - repeat constructor; simpl; lia.
  - apply list_elem_of_here.
  - apply crossedb_spec. reflexivity.
  - intros h Hh Hlt. exfalso.
    apply elem_of_cons in Hh as [->|Hh]; [simpl in Hlt; lia|].
    apply list_elem_of_singleton in Hh as ->. simpl in Hlt. lia.
  - reflexivity.
  - reflexivity.
Defined.
